(** * Transcendia: semantic key resolver and layered lookup cache

  A shallow embedding of [packages/server/src/services/semantic-engine.ts],
  [packages/server/src/services/cache.ts] and the approval handler of
  [routes/contribute.ts], with the properties of the key resolution and
  caching pipeline stated and proved over it.

  Conventions.
  - A JavaScript string is a [string]: a sequence of code units below 256
    (the Latin-1 range), on which [toLowerCase] is exact. Code units from
    256 on, some of which lower-case into the ASCII letters, are outside
    the model; a statement that compares a string with its lower-cased
    form is made for ASCII input.
  - [null] and [undefined] results are [None].
  - Numbers ([Date.now()], scores) are [Z].
  - [Date.now()] is an explicit argument [now] of the operations that read
    the clock. *)

From Stdlib Require Import ZArith Lia.
From Stdlib Require Import Ascii.
From stdpp Require Import base option list strings gmap fin_maps.

Local Open Scope Z_scope.

(** ** Strings *)

Module Str.

Definition code (c : ascii) : N := Ascii.N_of_ascii c.

Definition between (lo hi : N) (c : ascii) : bool :=
  ((lo <=? code c) && (code c <=? hi))%N.

Definition is_upper : ascii -> bool := between 65 90.
Definition is_lower : ascii -> bool := between 97 122.

(** Upper-case letters of the Latin-1 supplement: U+00C0..U+00DE without
    the multiplication sign U+00D7. *)
Definition is_upper_latin1 (c : ascii) : bool :=
  between 192 222 c && negb (code c =? 215)%N.

(** [String.prototype.toLowerCase] on one code unit below 256. *)
Definition lowerChar (c : ascii) : ascii :=
  if is_upper c || is_upper_latin1 c
  then Ascii.ascii_of_N (code c + 32) else c.

Fixpoint toLowerCase (s : string) : string :=
  match s with
  | EmptyString => EmptyString
  | String c s' => String (lowerChar c) (toLowerCase s')
  end.

(** [s.startsWith(p)] *)
Fixpoint startsWith (s p : string) : bool :=
  match p, s with
  | EmptyString, _ => true
  | String _ _, EmptyString => false
  | String a p', String b s' => Ascii.eqb a b && startsWith s' p'
  end.

(** [s.includes(p)] *)
Fixpoint includes (s p : string) : bool :=
  startsWith s p ||
  match s with
  | EmptyString => false
  | String _ s' => includes s' p
  end.

(** [s.endsWith(p)]: some suffix of [s] is [p]. *)
Fixpoint endsWith (s p : string) : bool :=
  String.eqb s p ||
  match s with
  | EmptyString => false
  | String _ s' => endsWith s' p
  end.

(** [s.split(sep)] for a separator of one code unit: every occurrence of
    the separator cuts, and the result has at least one element. *)
Fixpoint split (sep : ascii) (s : string) : list string :=
  match s with
  | EmptyString => [EmptyString]
  | String c s' =>
      if Ascii.eqb c sep then EmptyString :: split sep s'
      else match split sep s' with
           | p :: ps => String c p :: ps
           | [] => [String c EmptyString]
           end
  end.

(** Longest prefix whose code units satisfy [f], and the rest. *)
Fixpoint span (f : ascii -> bool) (s : string) : string * string :=
  match s with
  | EmptyString => (EmptyString, EmptyString)
  | String c s' =>
      if f c then let '(a, b) := span f s' in (String c a, b)
      else (EmptyString, s)
  end.

Definition isEmpty (s : string) : bool :=
  match s with EmptyString => true | _ => false end.

Fixpoint all (f : ascii -> bool) (s : string) : bool :=
  match s with
  | EmptyString => true
  | String c s' => f c && all f s'
  end.

Fixpoint contains (c : ascii) (s : string) : bool :=
  match s with
  | EmptyString => false
  | String d s' => Ascii.eqb d c || contains c s'
  end.

End Str.

(** ** Semantic engine (semantic-engine.ts) *)

Module SemanticEngine.
Import Str.

Record ParsedKey := mkParsedKey {
  intent : string;
  context : string;
  raw : string
}.

(** *** The key pattern

    [/^([a-z]+):([a-z_]+)(?:\+context:([a-z_]+))?$/i]

    The flag [i] makes the classes and the literal [+context:] match both
    cases of the ASCII letters; a code unit of 128 or more never
    canonicalizes to an ASCII one, so it matches nothing in this pattern. *)

(** [[a-z]] under the flag [i]. *)
Definition isLetter (c : ascii) : bool := is_lower c || is_upper c.

(** [[a-z_]] under the flag [i]. *)
Definition isWord (c : ascii) : bool := isLetter c || Ascii.eqb c "_".

(** ASCII case folding, the canonicalization the flag [i] applies to the
    code units that can match this pattern. *)
Definition fold (c : ascii) : ascii :=
  if is_upper c then Ascii.ascii_of_N (code c + 32) else c.

Fixpoint foldCase (s : string) : string :=
  match s with
  | EmptyString => EmptyString
  | String c s' => String (fold c) (foldCase s')
  end.

(** Strip the literal [lit] (given in lower case) from the front of [s],
    ignoring ASCII case. *)
Fixpoint stripLiteral (lit s : string) : option string :=
  match lit, s with
  | EmptyString, _ => Some s
  | String _ _, EmptyString => None
  | String a lit', String b s' =>
      if Ascii.eqb a (fold b) then stripLiteral lit' s' else None
  end.

Definition contextSeparator : string := "+context:".
Definition intentSeparator : ascii := ":"%char.

(** [key.match(keyPattern)]: the three capture groups, the third one
    [None] when the optional group did not take part. The classes exclude
    the characters that follow them in the pattern, so each group is the
    longest run of its class and no backtracking can change the result. *)
Definition matchKeyPattern (key : string)
  : option (string * string * option string) :=
  match span isLetter key with
  | (m1, String ":" rest) =>
      if isEmpty m1 then None else
      match span isWord rest with
      | (m2, EmptyString) =>
          if isEmpty m2 then None else Some (m1, m2, None)
      | (m2, tail) =>
          if isEmpty m2 then None else
          match stripLiteral contextSeparator tail with
          | Some rest3 =>
              match span isWord rest3 with
              | (m3, EmptyString) =>
                  if isEmpty m3 then None else Some (m1, m2, Some m3)
              | _ => None
              end
          | None => None
          end
      end
  | _ => None
  end.

(** [x?.toLowerCase() || 'default']: [undefined] and the empty string are
    both falsy. *)
Definition lowerOrDefault (x : option string) : string :=
  match x with
  | Some s => if isEmpty (toLowerCase s) then "default" else toLowerCase s
  | None => "default"
  end.

Definition parseKey (key : string) : ParsedKey :=
  match matchKeyPattern key with
  | Some (m1, _, m3) =>
      {| intent := toLowerCase m1;
         context := lowerOrDefault m3;
         raw := key |}
  | None =>
      let parts := split intentSeparator key in
      {| intent := toLowerCase (default EmptyString (parts !! 0%nat));
         context := lowerOrDefault (parts !! 1%nat);
         raw := key |}
  end.

(** [generateKey(intent, context?)]: an absent or empty context is falsy. *)
Definition generateKey (intent : string) (context : option string) : string :=
  match context with
  | Some (String c cs) =>
      "intent:" +:+ intent +:+ "+context:" +:+ String c cs
  | _ => "intent:" +:+ intent
  end.

Definition isContextRelated (ctx1 ctx2 : string) : bool :=
  startsWith ctx1 ctx2 || startsWith ctx2 ctx1 ||
  includes ctx1 ctx2 || includes ctx2 ctx1.

Definition calculateMatchScore
    (keyIntent keyContext targetIntent targetContext : string) : Z :=
  let score := 0 in
  let score := if String.eqb keyIntent targetIntent then score + 10 else score in
  if String.eqb keyContext targetContext then score + 5
  else if String.eqb keyContext "default" then score + 1
  else if isContextRelated keyContext targetContext then score + 2
  else score.

(** The score of a candidate against a target. *)
Definition scoreOf (targetIntent targetContext : string) (key : ParsedKey) : Z :=
  calculateMatchScore (intent key) (context key) targetIntent targetContext.

(** One iteration of the loop of [findBestMatch] on the pair
    [(bestMatch, highestScore)]. *)
Definition matchStep (targetIntent targetContext : string)
    (st : option ParsedKey * Z) (key : ParsedKey) : option ParsedKey * Z :=
  let score := scoreOf targetIntent targetContext key in
  if score >? snd st then (Some key, score) else st.

Definition findBestMatch (availableKeys : list ParsedKey)
    (targetIntent targetContext : string) : option ParsedKey :=
  fst (fold_left (matchStep targetIntent targetContext) availableKeys (None, 0)).

Definition isValidKey (key : string) : bool :=
  bool_decide (is_Some (matchKeyPattern key)) || contains ":" key.

(** [Set.prototype.add] on a set kept in insertion order. *)
Definition setAdd (x : string) (s : list string) : list string :=
  if bool_decide (x ∈ s) then s else s ++ [x].

(** [extractIntents]: the [Set] of the intents, as [Array.from] lists it. *)
Definition extractIntents (keys : list string) : list string :=
  fold_left (λ intents key, setAdd (intent (parseKey key)) intents) keys [].

(** [groupByIntent]: the [Map] from an intent to the array of its keys.
    The order of the groups in the [Map] is not kept. *)
Definition groupByIntent (keys : list ParsedKey)
  : gmap string (list ParsedKey) :=
  fold_left
    (λ groups key,
       let existing := default [] (groups !! intent key) in
       <[intent key := existing ++ [key]]> groups)
    keys ∅.

End SemanticEngine.

(** ** The shared tier

    The Redis server behind [ioredis] is not part of the repository. It is
    modelled by the documented behaviour of the five commands the cache
    service sends: [GET], [SETEX], [DEL], [KEYS] and [FLUSHDB]. A command on an
    unreachable server rejects, which is the exception the service
    catches. The flag [reachable] says whether the commands of one call
    are served; a connection that changes between two calls is a change
    of the flag between them. The server reads the same clock as the
    service, in milliseconds. *)

Module Redis.
Import Str.

Inductive Reply (A : Type) : Type :=
| Resolved (a : A)
| Rejected.
Arguments Resolved {A} a.
Arguments Rejected {A}.

Record t := mk {
  reachable : bool;
  data : gmap string (string * Z)   (* key to value and expiry time *)
}.

Definition alive (now : Z) (e : string * Z) : bool := now <? snd e.

Definition lookup (r : t) (key : string) (now : Z) : option string :=
  match data r !! key with
  | Some e => if alive now e then Some (fst e) else None
  | None => None
  end.

(** [GET key] *)
Definition get (r : t) (key : string) (now : Z) : Reply (option string) :=
  if reachable r then Resolved (lookup r key now) else Rejected.

(** [SETEX key seconds value] *)
Definition setex (r : t) (key : string) (seconds : Z) (value : string)
    (now : Z) : Reply t :=
  if reachable r
  then Resolved {| reachable := true;
                   data := <[key := (value, now + seconds * 1000)]> (data r) |}
  else Rejected.

(** [DEL key ...] *)
Definition del (r : t) (keys : list string) : Reply t :=
  if reachable r
  then Resolved {| reachable := true;
                   data := foldr delete (data r) keys |}
  else Rejected.

(** *** Glob patterns of [KEYS]

    [*] matches any run of code units, [?] any one, a bracketed class one
    of its members (with [^] for the complement and [a-b] for a range), a
    backslash followed by a code unit that code unit, anything else
    itself. *)

Inductive GlobItem :=
| GStar
| GAny
| GChar (c : ascii)
| GClass (negate : bool) (ranges : list (ascii * ascii)).

Definition backslash : ascii := Ascii.ascii_of_N 92.

(** The members of a class, up to its closing bracket, and what follows:
    a backslash quotes the next code unit, [a-b] is a range. *)
Fixpoint parseClass (p : string) (acc : list (ascii * ascii))
  : list (ascii * ascii) * string :=
  match p with
  | EmptyString => (acc, EmptyString)
  | String a p1 =>
      if Ascii.eqb a "]" then (acc, p1) else
      match p1 with
      | EmptyString => ((a, a) :: acc, EmptyString)
      | String c p2 =>
          if Ascii.eqb a backslash then parseClass p2 ((c, c) :: acc) else
          match c, p2 with
          | "-"%char, String b p3 => parseClass p3 ((a, b) :: acc)
          | _, _ => parseClass p1 ((a, a) :: acc)
          end
      end
  end.

Fixpoint parseGlob (fuel : nat) (p : string) : list GlobItem :=
  match fuel with
  | O => []
  | S fuel' =>
      match p with
      | EmptyString => []
      | String c p' =>
          if Ascii.eqb c "*" then GStar :: parseGlob fuel' p'
          else if Ascii.eqb c "?" then GAny :: parseGlob fuel' p'
          else if Ascii.eqb c "[" then
            match p' with
            | String "^" p'' =>
                let '(ranges, rest) := parseClass p'' [] in
                GClass true ranges :: parseGlob fuel' rest
            | _ =>
                let '(ranges, rest) := parseClass p' [] in
                GClass false ranges :: parseGlob fuel' rest
            end
          else if Ascii.eqb c backslash then
            match p' with
            | String d p'' => GChar d :: parseGlob fuel' p''
            | EmptyString => [GChar c]
            end
          else GChar c :: parseGlob fuel' p'
      end
  end.

Definition inRange (c : ascii) (r : ascii * ascii) : bool :=
  let lo := N.min (code (fst r)) (code (snd r)) in
  let hi := N.max (code (fst r)) (code (snd r)) in
  ((lo <=? code c) && (code c <=? hi))%N.

Definition matchOne (i : GlobItem) (c : ascii) : bool :=
  match i with
  | GStar => false
  | GAny => true
  | GChar d => Ascii.eqb d c
  | GClass negate ranges => xorb negate (existsb (inRange c) ranges)
  end.

Fixpoint matchItems (items : list GlobItem) (s : string) : bool :=
  match items with
  | [] => isEmpty s
  | GStar :: rest =>
      (fix star (s : string) : bool :=
         matchItems rest s ||
         match s with
         | EmptyString => false
         | String _ s' => star s'
         end) s
  | i :: rest =>
      match s with
      | EmptyString => false
      | String c s' => matchOne i c && matchItems rest s'
      end
  end.

Definition globMatch (pattern key : string) : bool :=
  matchItems (parseGlob (String.length pattern) pattern) key.

(** [KEYS pattern]: the keys that have not expired and match. *)
Definition keys (r : t) (pattern : string) (now : Z) : Reply (list string) :=
  if reachable r
  then Resolved
         ((map_to_list
             (filter (λ kv, alive now kv.2 = true
                            ∧ globMatch pattern kv.1 = true) (data r))).*1)
  else Rejected.

(** [FLUSHDB] *)
Definition flushdb (r : t) : Reply t :=
  if reachable r then Resolved {| reachable := true; data := ∅ |} else Rejected.

End Redis.

(** ** Cache service (cache.ts) *)

Module CacheService.
Import Str.
Import Redis (Reply(..)).

Definition CACHE_TTL : Z := 3600.

Record Entry := mkEntry {
  value : string;
  expiresAt : Z
}.

(** The two fields of the class: the handle of the shared tier, [null] once
    a connection error was reported, and the in-memory map. *)
Record t := mk {
  redis : option Redis.t;
  memoryCache : gmap string Entry
}.

Definition getCacheKey (key lang : string) : string :=
  key +:+ ":" +:+ lang.

(** The handler of the ['error'] event of the connection. *)
Definition onRedisError (cs : t) : t :=
  {| redis := None; memoryCache := memoryCache cs |}.

(** Lines 46-53 of [get]: the value of the shared tier, when there is a
    handle, the command resolves and the value is truthy. *)
Definition redisHit (cs : t) (cacheKey : string) (now : Z) : option string :=
  match redis cs with
  | Some r =>
      match Redis.get r cacheKey now with
      | Resolved (Some value) => if isEmpty value then None else Some value
      | Resolved None => None
      | Rejected => None
      end
  | None => None
  end.

(** Lines 56-61 of [get]: the entry of the memory cache, while it lives. *)
Definition memoryHit (cs : t) (cacheKey : string) (now : Z) : option string :=
  match memoryCache cs !! cacheKey with
  | Some cached => if expiresAt cached >? now then Some (value cached) else None
  | None => None
  end.

Definition get (cs : t) (key lang : string) (now : Z) : option string :=
  let cacheKey := getCacheKey key lang in
  match redisHit cs cacheKey now with
  | Some value => Some value
  | None => memoryHit cs cacheKey now
  end.

Definition memorySet (cs : t) (cacheKey value : string) (now : Z) : t :=
  {| redis := redis cs;
     memoryCache :=
       <[cacheKey := {| value := value; expiresAt := now + CACHE_TTL * 1000 |}]>
         (memoryCache cs) |}.

Definition set (cs : t) (key lang value : string) (now : Z) : t :=
  let cacheKey := getCacheKey key lang in
  match redis cs with
  | Some r =>
      match Redis.setex r cacheKey CACHE_TTL value now with
      | Resolved r' => {| redis := Some r'; memoryCache := memoryCache cs |}
      | Rejected => memorySet cs cacheKey value now
      end
  | None => memorySet cs cacheKey value now
  end.

Definition delete (cs : t) (key lang : string) : t :=
  let cacheKey := getCacheKey key lang in
  let redis' :=
    match redis cs with
    | Some r =>
        match Redis.del r [cacheKey] with
        | Resolved r' => Some r'
        | Rejected => Some r
        end
    | None => None
    end in
  {| redis := redis'; memoryCache := base.delete cacheKey (memoryCache cs) |}.

(** The loop of [clearLanguage] over the keys of the memory cache. *)
Definition clearMemory (suffix : string) (m : gmap string Entry)
  : gmap string Entry :=
  fold_left
    (λ acc cacheKey,
       if endsWith cacheKey suffix then base.delete cacheKey acc else acc)
    (map_to_list m).*1 m.

Definition clearLanguage (cs : t) (lang : string) (now : Z) : t :=
  let redis' :=
    match redis cs with
    | Some r =>
        match Redis.keys r ("*:" +:+ lang) now with
        | Resolved keys =>
            if (0 <? length keys)%nat
            then match Redis.del r keys with
                 | Resolved r' => Some r'
                 | Rejected => Some r
                 end
            else Some r
        | Rejected => Some r
        end
    | None => None
    end in
  {| redis := redis';
     memoryCache := clearMemory (":" +:+ lang) (memoryCache cs) |}.

Definition clearAll (cs : t) : t :=
  let redis' :=
    match redis cs with
    | Some r =>
        match Redis.flushdb r with
        | Resolved r' => Some r'
        | Rejected => Some r
        end
    | None => None
    end in
  {| redis := redis'; memoryCache := ∅ |}.

Definition getStats (cs : t) : bool * nat :=
  (bool_decide (is_Some (redis cs)), size (memoryCache cs)).

(** The shared tier cannot serve: no handle, or its commands reject. *)
Definition sharedDown (cs : t) : Prop :=
  match redis cs with
  | Some r => Redis.reachable r = false
  | None => True
  end.

(** The shared tier serves. *)
Definition sharedUp (cs : t) : Prop :=
  match redis cs with
  | Some r => Redis.reachable r = true
  | None => False
  end.

End CacheService.

(** ** Approval of a contribution (routes/contribute.ts)

    The tables the handler touches are finite maps: translation keys and
    languages by id, contributions by id, translations by the unique pair
    [(keyId, languageId)]. *)

Module Contribute.

Record TranslationKey := mkTranslationKey {
  tk_key : string;
  tk_intent : string;
  tk_context : string
}.

Record Language := mkLanguage {
  l_code : string
}.

Record Contribution := mkContribution {
  c_keyId : string;
  c_languageId : string;
  c_suggestedValue : string;
  c_status : string
}.

Record Translation := mkTranslation {
  t_id : string;
  t_value : string;
  t_status : string
}.

Record Db := mkDb {
  translationKeys : gmap string TranslationKey;
  languages : gmap string Language;
  contributions : gmap string Contribution;
  translations : gmap (string * string) Translation
}.

Inductive Response :=
| NotFound                                       (* 404 *)
| Approved (id key value lang : string)          (* 200 *)
| InternalError.                                 (* 500 *)

(** [prisma.contribution.update({ where: { id }, data: { status } })] *)
Definition updateStatus (id status : string) (db : Db) : Db :=
  {| translationKeys := translationKeys db;
     languages := languages db;
     contributions :=
       alter (λ c, {| c_keyId := c_keyId c;
                      c_languageId := c_languageId c;
                      c_suggestedValue := c_suggestedValue c;
                      c_status := status |}) id (contributions db);
     translations := translations db |}.

(** [prisma.translation.upsert]: the row of the pair is updated, or created
    under the fresh id [newId]. *)
Definition upsertTranslation (keyId languageId value newId : string) (db : Db)
  : Translation * Db :=
  let row :=
    match translations db !! (keyId, languageId) with
    | Some old => {| t_id := t_id old; t_value := value; t_status := "APPROVED" |}
    | None => {| t_id := newId; t_value := value; t_status := "APPROVED" |}
    end in
  (row,
   {| translationKeys := translationKeys db;
      languages := languages db;
      contributions := contributions db;
      translations := <[(keyId, languageId) := row]> (translations db) |}).

(** The handler of [PUT /contribute/:id/approve] on the database. The
    relations [key] and [language] are required ones: a contribution whose
    key or language row is missing cannot be read. *)
Definition approve (id newId : string) (db : Db) : Response * Db :=
  match contributions db !! id with
  | None => (NotFound, db)
  | Some contribution =>
      match translationKeys db !! c_keyId contribution,
            languages db !! c_languageId contribution with
      | Some key, Some language =>
          let db1 := updateStatus id "APPROVED" db in
          let '(translation, db2) :=
            upsertTranslation (c_keyId contribution) (c_languageId contribution)
              (c_suggestedValue contribution) newId db1 in
          (Approved (t_id translation) (tk_key key) (t_value translation)
             (l_code language), db2)
      | _, _ => (InternalError, db)
      end
  end.

(** The process: the database client and the cache service of the
    translate routes. The module of the contribute routes imports the
    first and not the second. *)
Record Server := mkServer {
  db : Db;
  cacheService : CacheService.t
}.


(** *** Rejection *)

Inductive RejectResponse :=
| RejectDone (id status : string)                (* 200 *)
| RejectError                                    (* 500, from the catch *)
| RejectThrown.                                  (* thrown before the try *)

(** The handler of [PUT /contribute/:id/reject]. [body] is [None] when the
    request has no body, in which case reading [reason] off it throws
    before the [try] is entered. [contribution.update] throws when no row
    has the id. *)
Definition reject (id : string) (body : option (option string)) (db : Db)
  : RejectResponse * Db :=
  match body with
  | None => (RejectThrown, db)
  | Some reason =>
      match contributions db !! id with
      | None => (RejectError, db)
      | Some _ => (RejectDone id "REJECTED", updateStatus id "REJECTED" db)
      end
  end.

(** *** Submission *)

(** The filter [OR: [{ key }, { intent, context }]]. *)
Definition keyMatches (key intent context : string) (row : TranslationKey)
  : bool :=
  String.eqb (tk_key row) key
  || (String.eqb (tk_intent row) intent && String.eqb (tk_context row) context).

(** [prisma.translationKey.findFirst]: a row that passes the filter. The
    query fixes no order; the rows are taken in the order of
    [map_to_list]. *)
Definition findFirstKey (db : Db) (key intent context : string)
  : option (string * TranslationKey) :=
  head (filter (λ row, keyMatches key intent context row.2 = true)
          (map_to_list (translationKeys db))).

(** [prisma.language.findUnique({ where: { code } })] *)
Definition findLanguageByCode (db : Db) (code : string)
  : option (string * Language) :=
  head (filter (λ row, String.eqb (l_code row.2) code = true)
          (map_to_list (languages db))).

Inductive SubmitResponse :=
| Created (id key lang value status : string)    (* 201 *)
| LanguageNotFound.                              (* 404 *)

(** The handler of [POST /contribute] on a validated body. [newKeyId] and
    [newId] are the ids the database gives to the rows it creates. The
    columns [comment] and [contributorId] of a contribution are written
    and never read; the model leaves them out. *)
Definition submit (key lang value newKeyId newId : string) (db : Db)
  : SubmitResponse * Db :=
  let parsed := SemanticEngine.parseKey key in
  let '(keyId, db1) :=
    match findFirstKey db key (SemanticEngine.intent parsed)
            (SemanticEngine.context parsed) with
    | Some (id, _) => (id, db)
    | None =>
        (newKeyId,
         {| translationKeys :=
              <[newKeyId :=
                  {| tk_key := key;
                     tk_intent := SemanticEngine.intent parsed;
                     tk_context :=
                       if Str.isEmpty (SemanticEngine.context parsed)
                       then "default" else SemanticEngine.context parsed |}]>
                (translationKeys db);
            languages := languages db;
            contributions := contributions db;
            translations := translations db |})
    end in
  match findLanguageByCode db1 lang with
  | None => (LanguageNotFound, db1)
  | Some (languageId, _) =>
      (Created newId key lang value "OPEN",
       {| translationKeys := translationKeys db1;
          languages := languages db1;
          contributions :=
            <[newId := {| c_keyId := keyId;
                          c_languageId := languageId;
                          c_suggestedValue := value;
                          c_status := "OPEN" |}]> (contributions db1);
          translations := translations db1 |})
  end.

End Contribute.

(** ** Lookup of a translation (routes/translate.ts) *)

Module Translate.
Import Contribute.

Inductive Response :=
| Translated (key value lang context : string) (cached : bool)   (* 200 *)
| TranslationNotFound (key lang : string).                       (* 404 *)

(** [include: { translations: { where: { language: { code: lang },
    status: 'APPROVED' } } }] for the key row [keyId]. *)
Definition approvedTranslations (db : Db) (keyId lang : string)
  : list Translation :=
  (filter
     (λ row : string * string * Translation,
        String.eqb row.1.1 keyId
        && match languages db !! row.1.2 with
           | Some language => String.eqb (l_code language) lang
           | None => false
           end
        && String.eqb (t_status row.2) "APPROVED" = true)
     (map_to_list (translations db))).*2.

(** The handler of [GET /translate]. The query parameter [context] is read
    and not used. A cached value counts when it is truthy. *)
Definition translate (key lang : string) (srv : Server) (now : Z)
  : Response * Server :=
  let parsed := SemanticEngine.parseKey key in
  match CacheService.get (cacheService srv) key lang now with
  | Some (String c cached) =>
      (Translated key (String c cached) lang (SemanticEngine.context parsed) true,
       srv)
  | _ =>
      match findFirstKey (db srv) key (SemanticEngine.intent parsed)
              (SemanticEngine.context parsed) with
      | None => (TranslationNotFound key lang, srv)
      | Some (keyId, _) =>
          match approvedTranslations (db srv) keyId lang with
          | [] => (TranslationNotFound key lang, srv)
          | translation :: _ =>
              (Translated key (t_value translation) lang
                 (SemanticEngine.context parsed) false,
               {| db := db srv;
                  cacheService :=
                    CacheService.set (cacheService srv) key lang
                      (t_value translation) now |})
          end
      end
  end.

End Translate.

Import Str SemanticEngine.

(** ** Vocabulary of the statements *)

(** A lower-case token: a non-empty run of [a-z_]. *)
Definition isLowerWord (c : ascii) : bool := is_lower c || Ascii.eqb c "_".

Definition lowerToken (s : string) : Prop :=
  isEmpty s = false ∧ all isLowerWord s = true.

(** The strings of the language of the key pattern, with their groups. *)
Definition keyPatternShape (key m1 m2 : string) (m3 : option string) : Prop :=
  isEmpty m1 = false ∧ all isLetter m1 = true
  ∧ isEmpty m2 = false ∧ all isWord m2 = true
  ∧ match m3 with
    | None => key = m1 +:+ String ":" m2
    | Some g3 =>
        isEmpty g3 = false ∧ all isWord g3 = true
        ∧ ∃ sep, foldCase sep = contextSeparator
                 ∧ key = m1 +:+ String ":" (m2 +:+ sep +:+ g3)
    end.

(** The text of [r] up to its first [:], or all of [r] when it has none. *)
Definition segment (r : string) : string :=
  fst (span (λ c, negb (Ascii.eqb c ":")) r).

(** A literal made of code units that match the same input code units
    before and after [toLowerCase]. *)
Fixpoint plainLiteral (lit : string) : Prop :=
  match lit with
  | EmptyString => True
  | String a lit' =>
      (∀ b, Ascii.eqb a (fold (lowerChar b)) = Ascii.eqb a (fold b))
      ∧ plainLiteral lit'
  end.

(** A code unit of the ASCII range. *)
Definition isAscii (c : ascii) : bool := (code c <? 128)%N.

Section StatementsOfTheCache.
Import CacheService Contribute.

(** A language code without the characters that are special in a glob
    pattern. *)
Definition isGlobMeta (c : ascii) : bool :=
  Ascii.eqb c "*" || Ascii.eqb c "?" || Ascii.eqb c "["
  || Ascii.eqb c Redis.backslash.

Definition globFree (s : string) : Prop :=
  all (λ c, negb (isGlobMeta c)) s = true.

Fixpoint literal (s : string) : list Redis.GlobItem :=
  match s with
  | EmptyString => []
  | String c s' => Redis.GChar c :: literal s'
  end.

(** A server in which the translation of ["intent:greeting"] into ["tr"] is
    cached and a contribution suggests another value for it. *)
Definition staleServer : Server :=
  {| db :=
       {| translationKeys := {["k1" := mkTranslationKey "intent:greeting" "intent" "default"]};
          languages := {["l1" := mkLanguage "tr"]};
          contributions := {["c1" := mkContribution "k1" "l1" "Selam" "OPEN"]};
          translations := {[("k1", "l1") := mkTranslation "t1" "Merhaba" "APPROVED"]} |};
     cacheService :=
       {| redis := None;
          memoryCache :=
            {["intent:greeting:tr" := mkEntry "Merhaba" 3600000]} |} |}.

(** A cache whose shared tier holds one entry of the language ["tr"] and
    whose memory cache holds another. *)
Definition tieredCache : CacheService.t :=
  {| redis := Some (Redis.mk true {["greeting:tr" := ("Merhaba", 3600000)]});
     memoryCache := {["farewell:tr" := mkEntry "Gule gule" 3600000]} |}.

(** The contribution [c] with the status [status]. *)
Definition withStatus (status : string) (c : Contribution) : Contribution :=
  {| c_keyId := c_keyId c;
     c_languageId := c_languageId c;
     c_suggestedValue := c_suggestedValue c;
     c_status := status |}.

(** The id under which an upsert for the pair stores its row. *)
Definition rowId (db : Db) (keyId languageId newId : string) : string :=
  match translations db !! (keyId, languageId) with
  | Some old => t_id old
  | None => newId
  end.

(** The database after the approval of [c], stored under [id]. *)
Definition approvedDb (id newId : string) (db : Db) (c : Contribution) : Db :=
  {| translationKeys := translationKeys db;
     languages := languages db;
     contributions := alter (withStatus "APPROVED") id (contributions db);
     translations :=
       <[(c_keyId c, c_languageId c) :=
           {| t_id := rowId db (c_keyId c) (c_languageId c) newId;
              t_value := c_suggestedValue c;
              t_status := "APPROVED" |}]> (translations db) |}.

(** A database with two contributions for one key and language, the
    second of them rejected, and no translation yet. *)
Definition secondOpinion : Db :=
  {| translationKeys := {["k1" := mkTranslationKey "intent:greeting" "intent" "default"]};
     languages := {["l1" := mkLanguage "tr"]};
     contributions :=
       {["c1" := mkContribution "k1" "l1" "Selam" "OPEN";
         "c2" := mkContribution "k1" "l1" "Selamlar" "REJECTED"]};
     translations := ∅ |}.

(** The key row that a submission stores for a key string. *)
Definition storedKey (key : string) : TranslationKey :=
  {| tk_key := key;
     tk_intent := intent (parseKey key);
     tk_context :=
       if isEmpty (context (parseKey key)) then "default"
       else context (parseKey key) |}.

(** The server of [staleServer] with an empty cache. *)
Definition coldServer : Server :=
  {| db := db staleServer;
     cacheService := {| redis := None; memoryCache := ∅ |} |}.

(** The service as a later call finds it when the connection has changed
    in between: its commands are served ([Some true]) or rejected
    ([Some false]), or the error handler has dropped the handle ([None]).
    What the server stores and the memory cache are as they were. *)
Definition laterLink (link : option bool) (cs : CacheService.t)
  : CacheService.t :=
  match link with
  | Some served =>
      {| redis := (λ r, Redis.mk served (Redis.data r)) <$> redis cs;
         memoryCache := memoryCache cs |}
  | None => onRedisError cs
  end.

End StatementsOfTheCache.

(** ** Facts about strings *)

Section StringFacts.

Lemma append_cons (c : ascii) (s t : string) :
  String c s +:+ t = String c (s +:+ t).
Proof. reflexivity. Qed.

Lemma append_nil_l (s : string) : "" +:+ s = s.
Proof. reflexivity. Qed.

Lemma append_nil_r (s : string) : s +:+ "" = s.
Proof. induction s as [|c s IH]; [done | by rewrite append_cons, IH]. Qed.

Lemma append_assoc (a b c : string) : (a +:+ b) +:+ c = a +:+ b +:+ c.
Proof. induction a as [|x a IH]; [done | by rewrite !append_cons, IH]. Qed.

Lemma all_impl (f g : ascii → bool) (s : string) :
  (∀ c, f c = true → g c = true) → all f s = true → all g s = true.
Proof.
  intros Hfg. induction s as [|c s IH]; simpl; [done |].
  rewrite !andb_true_iff. intros [Hc Hs]. split; [by apply Hfg | by apply IH].
Qed.

(** A run of [f] followed by something that does not start with an [f]
    character is cut exactly at the boundary. *)
Lemma span_app (f : ascii → bool) (a b : string) :
  all f a = true →
  match b with EmptyString => True | String c _ => f c = false end →
  span f (a +:+ b) = (a, b).
Proof.
  intros Ha Hb. induction a as [|c a IH].
  - rewrite append_nil_l. destruct b as [|d b]; simpl; [done | by rewrite Hb].
  - simpl in Ha. apply andb_true_iff in Ha as [Hc Ha].
    rewrite append_cons. simpl. by rewrite Hc, (IH Ha).
Qed.

Lemma span_all (f : ascii → bool) (a : string) :
  all f a = true → span f a = (a, EmptyString).
Proof.
  intros Ha. rewrite <-(append_nil_r a) at 1. by apply span_app.
Qed.

Lemma span_spec (f : ascii → bool) (s a b : string) :
  span f s = (a, b) →
  s = a +:+ b ∧ all f a = true ∧
  match b with EmptyString => True | String c _ => f c = false end.
Proof.
  revert a b. induction s as [|c s IH]; simpl; intros a b H.
  - by inversion H.
  - destruct (f c) eqn:Hc.
    + destruct (span f s) as [a' b'] eqn:Hs. inversion H; subst.
      destruct (IH _ _ eq_refl) as (-> & Ha & Hb).
      rewrite append_cons. simpl. by rewrite Hc, Ha.
    + inversion H; subst. by rewrite append_nil_l.
Qed.

Lemma split_cons (sep : ascii) (s : string) :
  ∃ p ps, split sep s = p :: ps.
Proof.
  induction s as [|c s (p & ps & IH)]; simpl; [by eauto |].
  destruct (Ascii.eqb c sep); [by eauto |]. rewrite IH. by eauto.
Qed.

(** The first element of a split is the text before the first separator. *)
Lemma split_no_sep (sep : ascii) (s : string) :
  contains sep s = false → split sep s = [s].
Proof.
  induction s as [|c s IH]; simpl; [done |].
  rewrite orb_false_iff. intros [Hc Hs]. by rewrite Hc, (IH Hs).
Qed.

Lemma split_app (sep : ascii) (l r : string) :
  contains sep l = false →
  split sep (l +:+ String sep r) = l :: split sep r.
Proof.
  induction l as [|c l IH].
  - intros _. rewrite append_nil_l. simpl. by rewrite Ascii.eqb_refl.
  - intros H. simpl in H. apply orb_false_iff in H as [Hc Hl].
    rewrite append_cons. simpl. by rewrite Hc, (IH Hl).
Qed.

(** The head of a split is the run of non-separator characters. *)
Lemma split_head (sep : ascii) (r : string) :
  split sep r !! 0%nat = Some (fst (span (λ c, negb (Ascii.eqb c sep)) r)).
Proof.
  induction r as [|c r IH]; simpl; [done |].
  destruct (Ascii.eqb c sep); simpl; [done |].
  destruct (split_cons sep r) as (p & ps & Hp). rewrite Hp in IH |- *.
  simpl in IH. injection IH as ->.
  by destruct (span _ r).
Qed.

Lemma lowerChar_lower (c : ascii) :
  is_lower c || Ascii.eqb c "_" = true → lowerChar c = c.
Proof.
  destruct c as [[] [] [] [] [] [] [] []]; vm_compute; congruence.
Qed.

Lemma toLowerCase_lower (s : string) :
  all (λ c, is_lower c || Ascii.eqb c "_") s = true → toLowerCase s = s.
Proof.
  induction s as [|c s IH]; simpl; [done |].
  rewrite andb_true_iff. intros [Hc Hs]. by rewrite lowerChar_lower, IH.
Qed.

Lemma toLowerCase_isEmpty (s : string) : isEmpty (toLowerCase s) = isEmpty s.
Proof. by destruct s. Qed.

End StringFacts.

(** ** The semantic engine *)

Section Engine.

Lemma isLowerWord_isWord (c : ascii) : isLowerWord c = true → isWord c = true.
Proof.
  unfold isLowerWord, isWord, isLetter.
  destruct (is_lower c), (is_upper c), (Ascii.eqb c "_"); simpl; congruence.
Qed.

(** *** The matcher accepts the language of the key pattern

    [matchKeyPattern] answers [Some (m1, m2, m3)] exactly on the strings
    [m1 : m2] and [m1 : m2 sep m3] where [m1] is a non-empty run of
    letters, [m2] and [m3] are non-empty runs of letters and underscores,
    and [sep] is [+context:] in any case. *)

Lemma stripLiteral_spec (lit s rest : string) :
  stripLiteral lit s = Some rest ↔ ∃ sep, foldCase sep = lit ∧ s = sep +:+ rest.
Proof.
  revert s. induction lit as [|a lit IH]; intros s; simpl.
  - split.
    + intros [= ->]. by exists EmptyString.
    + intros ([|c sep] & Hf & ->); [done | discriminate Hf].
  - destruct s as [|b s].
    + split; [done |]. intros ([|c sep] & Hf & Hs); discriminate.
    + destruct (Ascii.eqb_spec a (fold b)) as [-> | Hne].
      * rewrite IH. split.
        -- intros (sep & <- & ->). by exists (String b sep).
        -- intros ([|c sep] & Hf & Hs); [discriminate Hf |].
           rewrite append_cons in Hs. injection Hs as -> ->.
           simpl in Hf. injection Hf as Hf. by exists sep.
      * split; [done |]. intros ([|c sep] & Hf & Hs); [discriminate Hf |].
        rewrite append_cons in Hs. injection Hs as -> ->.
        simpl in Hf. injection Hf as Hc Hf. by destruct Hne.
Qed.

Lemma fold_plus_not_word (c : ascii) : fold c = "+"%char → isWord c = false.
Proof.
  destruct c as [[] [] [] [] [] [] [] []]; vm_compute; congruence.
Qed.

Lemma matchKeyPattern_sound (key m1 m2 : string) (m3 : option string) :
  matchKeyPattern key = Some (m1, m2, m3) → keyPatternShape key m1 m2 m3.
Proof.
  unfold matchKeyPattern, keyPatternShape.
  destruct (span isLetter key) as [g1 r1] eqn:H1.
  apply span_spec in H1 as (-> & Hg1 & _).
  destruct r1 as [|c r1]; [done |].
  destruct (Ascii.eqb_spec c ":") as [-> | Hne];
    [| by destruct c as [[] [] [] [] [] [] [] []]].
  destruct (isEmpty g1) eqn:He1; [done |].
  destruct (span isWord r1) as [g2 r2] eqn:H2.
  apply span_spec in H2 as (-> & Hg2 & _).
  destruct (isEmpty g2) eqn:He2; [by destruct r2 |].
  destruct r2 as [|d r2].
  - intros [= <- <- <-]. by rewrite append_nil_r.
  - destruct (stripLiteral contextSeparator (String d r2)) as [r3|] eqn:H3;
      [| done].
    apply stripLiteral_spec in H3 as (sep & Hsep & Hr2).
    destruct (span isWord r3) as [g3 r4] eqn:H4.
    apply span_spec in H4 as (-> & Hg3 & _).
    destruct r4; [| done]. destruct (isEmpty g3) eqn:He3; [done |].
    intros [= <- <- <-]. repeat split; try done.
    exists sep. split; [done |]. by rewrite Hr2, append_nil_r.
Qed.

Lemma matchKeyPattern_complete (key m1 m2 : string) (m3 : option string) :
  keyPatternShape key m1 m2 m3 → matchKeyPattern key = Some (m1, m2, m3).
Proof.
  unfold keyPatternShape, matchKeyPattern.
  intros (He1 & Hg1 & He2 & Hg2 & H3).
  destruct m3 as [g3|].
  - destruct H3 as (He3 & Hg3 & sep & Hsep & ->).
    rewrite (span_app isLetter m1 (String ":" _)) by done. rewrite He1.
    destruct sep as [|c sep]; [discriminate Hsep |].
    injection Hsep as Hc Hsep. rewrite append_cons.
    rewrite (span_app isWord m2 (String c _))
      by (done || by apply fold_plus_not_word). rewrite He2.
    assert (stripLiteral contextSeparator (String c (sep +:+ g3)) = Some g3)
      as ->.
    { apply stripLiteral_spec. exists (String c sep). split; [| done].
      unfold contextSeparator. simpl. by rewrite Hc, Hsep. }
    by rewrite (span_all isWord g3 Hg3), He3.
  - subst key.
    rewrite (span_app isLetter m1 (String ":" m2)) by done. rewrite He1.
    by rewrite (span_all isWord m2 Hg2), He2.
Qed.

Lemma matchKeyPattern_canonical (I C : string) :
  lowerToken I → lowerToken C →
  matchKeyPattern ("intent:" +:+ I +:+ "+context:" +:+ C)
  = Some ("intent", I, Some C).
Proof.
  intros [HI1 HI2] [HC1 HC2]. unfold matchKeyPattern.
  change (span isLetter ("intent:" +:+ I +:+ "+context:" +:+ C))
    with ("intent", String ":" (I +:+ "+context:" +:+ C)).
  cbv iota beta. change (isEmpty "intent") with false. cbv iota.
  rewrite (span_app isWord I ("+context:" +:+ C));
    [| by eapply all_impl; [apply isLowerWord_isWord |] | done].
  rewrite HI1. simpl. rewrite append_nil_l.
  rewrite (span_all isWord C) by (by eapply all_impl; [apply isLowerWord_isWord |]).
  by rewrite HC1.
Qed.

(** C1 (what the code does on canonical strings): on
    [intent:I+context:C] with lower-case tokens [I] and [C], [parseKey]
    returns the context [C] but the intent ["intent"], the first capture
    group of the pattern, not [I]; [generateKey I C] is
    ["intent:" + I + "+context:" + C]. *)
Theorem parseKey_canonical (I C : string) :
  lowerToken I → lowerToken C →
  parseKey ("intent:" +:+ I +:+ "+context:" +:+ C)
  = {| intent := "intent"; context := C;
       raw := "intent:" +:+ I +:+ "+context:" +:+ C |}
  ∧ generateKey I (Some C) = "intent:" +:+ I +:+ "+context:" +:+ C.
Proof.
  intros HI HC. split.
  - unfold parseKey. rewrite (matchKeyPattern_canonical I C HI HC).
    destruct HC as [HC1 HC2]. unfold lowerOrDefault.
    rewrite (toLowerCase_lower C HC2), HC1. reflexivity.
  - destruct HC as [HC1 _]. destruct C; [discriminate | reflexivity].
Qed.

Lemma parseKey_canonical_witness :
  parseKey "intent:greeting+context:app_entry"
  = {| intent := "intent"; context := "app_entry";
       raw := "intent:greeting+context:app_entry" |}
  ∧ generateKey "greeting" (Some "app_entry")
    = "intent:greeting+context:app_entry".
Proof.
  apply (parseKey_canonical "greeting" "app_entry"); split; reflexivity.
Defined.

(** *** The fall-back branch of [parseKey] *)

Lemma contains_app (c : ascii) (a b : string) :
  contains c (a +:+ b) = contains c a || contains c b.
Proof.
  induction a as [|d a IH]; [done |].
  rewrite append_cons. simpl. by rewrite IH, orb_assoc.
Qed.

(** A string without [:] does not match the key pattern. *)
Lemma matchKeyPattern_no_separator (key : string) :
  contains ":" key = false → matchKeyPattern key = None.
Proof.
  intros Hc. unfold matchKeyPattern.
  destruct (span isLetter key) as [m1 rest] eqn:Hs.
  apply span_spec in Hs as (-> & _ & _).
  rewrite contains_app in Hc. apply orb_false_iff in Hc as [_ Hrest].
  destruct rest as [|c rest]; [done |].
  simpl in Hrest. apply orb_false_iff in Hrest as [Hc _].
  destruct c as [[] [] [] [] [] [] [] []]; try done; discriminate Hc.
Qed.

(** C4 (as the code has it): a string with no [:] gets its lower-cased self
    as intent and the context ["default"]. When the pattern does not match,
    the intent is the lower-cased text before the first [:], and the
    context is the lower-cased text between the first and the second [:]
    (up to the end when there is no second one), or ["default"] when that
    text is empty. *)
Theorem parseKey_fallback (key : string) :
  (contains ":" key = false →
     parseKey key
     = {| intent := toLowerCase key; context := "default"; raw := key |})
  ∧ (matchKeyPattern key = None →
     ∀ l r, contains ":" l = false → key = l +:+ String ":" r →
       intent (parseKey key) = toLowerCase l
       ∧ context (parseKey key)
         = if isEmpty (segment r) then "default" else toLowerCase (segment r)).
Proof.
  split.
  - intros Hc. unfold parseKey.
    rewrite (matchKeyPattern_no_separator key Hc).
    unfold intentSeparator. by rewrite (split_no_sep _ _ Hc).
  - intros Hm l r Hl ->. unfold parseKey. rewrite Hm.
    unfold intentSeparator.
    rewrite (split_app _ _ _ Hl). simpl. split; [done |].
    destruct (split_cons ":" r) as (p & ps & Hp).
    pose proof (split_head ":" r) as Hh. rewrite Hp in Hh |- *.
    simpl in Hh. injection Hh as ->. simpl.
    unfold lowerOrDefault, segment. by rewrite toLowerCase_isEmpty.
Qed.

Lemma parseKey_fallback_witness :
  intent (parseKey "error:validation_failed+field:email") = "error"
  ∧ context (parseKey "error:validation_failed+field:email")
    = "validation_failed+field".
Proof.
  exact (proj2 (parseKey_fallback "error:validation_failed+field:email") eq_refl
           "error" "validation_failed+field:email" eq_refl eq_refl).
Defined.

(** C4 as stated fails: on ["a:b:c"], which the pattern does not match, the
    context is ["b"], not the whole right side ["b:c"] of the first [:]. *)
Lemma parseKey_fallback_drops_later_segments :
  matchKeyPattern "a:b:c" = None
  ∧ "a:b:c" = "a" +:+ String ":" "b:c"
  ∧ contains ":" "a" = false
  ∧ context (parseKey "a:b:c") = "b"
  ∧ context (parseKey "a:b:c") ≠ toLowerCase "b:c".
Proof. repeat split; try reflexivity. discriminate. Qed.

(** *** Scoring *)

Lemma calculateMatchScore_nonneg (ki kc ti tc : string) :
  0 ≤ calculateMatchScore ki kc ti tc.
Proof.
  unfold calculateMatchScore.
  repeat match goal with |- context [if ?b then _ else _] => destruct b end; lia.
Qed.

Lemma calculateMatchScore_other_intent (ki kc ti tc : string) :
  ki ≠ ti → calculateMatchScore ki kc ti tc ≤ 5.
Proof.
  intros Hne. unfold calculateMatchScore.
  apply String.eqb_neq in Hne. rewrite Hne.
  repeat match goal with |- context [if ?b then _ else _] => destruct b end; lia.
Qed.

(** C7: a candidate with the target's intent and the target's context scores
    15, strictly more than any candidate with another intent, whatever that
    candidate's context. *)
Theorem exact_match_outscores_other_intent (ti tc ki kc : string) :
  ki ≠ ti →
  calculateMatchScore ti tc ti tc = 15
  ∧ calculateMatchScore ki kc ti tc < calculateMatchScore ti tc ti tc.
Proof.
  intros Hne.
  assert (calculateMatchScore ti tc ti tc = 15) as H15.
  { unfold calculateMatchScore. by rewrite !String.eqb_refl. }
  split; [done |]. rewrite H15.
  pose proof (calculateMatchScore_other_intent ki kc ti tc Hne). lia.
Qed.

Lemma exact_match_outscores_other_intent_witness :
  calculateMatchScore "greeting" "app_entry" "greeting" "app_entry" = 15
  ∧ calculateMatchScore "farewell" "app_entry" "greeting" "app_entry"
    < calculateMatchScore "greeting" "app_entry" "greeting" "app_entry".
Proof.
  apply (exact_match_outscores_other_intent
           "greeting" "app_entry" "farewell" "app_entry").
  discriminate.
Defined.

(** *** The scan of [findBestMatch] *)

Section Scan.

Variables ti tc : string.

Abbreviation step := (matchStep ti tc).
Abbreviation score := (scoreOf ti tc).

(** A candidate that does not beat the current highest score leaves the
    state alone. *)
Lemma matchStep_keep (b : option ParsedKey) (h : Z) (k : ParsedKey) :
  score k ≤ h → step (b, h) k = (b, h).
Proof.
  intros Hle. unfold matchStep. simpl.
  destruct (Z.gtb_spec (score k) h); [lia | done].
Qed.

Lemma matchStep_take (b : option ParsedKey) (h : Z) (k : ParsedKey) :
  h < score k → step (b, h) k = (Some k, score k).
Proof.
  intros Hlt. unfold matchStep. simpl.
  destruct (Z.gtb_spec (score k) h); [done | lia].
Qed.

Lemma scan_keep (l : list ParsedKey) (b : option ParsedKey) (h : Z) :
  (∀ k, k ∈ l → score k ≤ h) → fold_left step l (b, h) = (b, h).
Proof.
  induction l as [|x l IH]; intros Hall; simpl; [done |].
  rewrite matchStep_keep by (apply Hall; left).
  apply IH. intros k Hk. apply Hall. by right.
Qed.

Lemma scan_below (l : list ParsedKey) (b : option ParsedKey) (h m : Z) :
  (∀ k, k ∈ l → score k < m) → h < m →
  snd (fold_left step l (b, h)) < m.
Proof.
  revert b h. induction l as [|x l IH]; intros b h Hall Hh; simpl; [done |].
  assert (score x < m) as Hx by (apply Hall; left).
  assert (∀ k, k ∈ l → score k < m) as Hl by (intros k Hk; apply Hall; by right).
  destruct (Z.gtb_spec (score x) h) as [Hgt | Hle].
  - rewrite matchStep_take by lia. by apply IH.
  - rewrite matchStep_keep by lia. by apply IH.
Qed.

(** What the scan returns: the start state, when nothing beats it, or a
    candidate of the list together with its score, which beats the start. *)
Lemma scan_result (l : list ParsedKey) (b : option ParsedKey) (h : Z) :
  (fold_left step l (b, h) = (b, h) ∧ ∀ k, k ∈ l → score k ≤ h)
  ∨ (∃ k, fold_left step l (b, h) = (Some k, score k) ∧ k ∈ l ∧ h < score k).
Proof.
  revert b h. induction l as [|x l IH]; intros b h; simpl.
  - left. split; [done |]. intros k Hk. by apply elem_of_nil in Hk.
  - destruct (Z.gtb_spec (score x) h) as [Hgt | Hle].
    + rewrite matchStep_take by lia. right.
      destruct (IH (Some x) (score x)) as [[-> Hall] | (k & -> & Hk & Hlt)].
      * exists x. split; [done |]. split; [left | lia].
      * exists k. split; [done |]. split; [by right | lia].
    + rewrite matchStep_keep by lia.
      destruct (IH b h) as [[-> Hall] | (k & -> & Hk & Hlt)].
      * left. split; [done |]. intros k Hk.
        apply elem_of_cons in Hk as [-> | Hk]; [lia | by apply Hall].
      * right. exists k. split; [done |]. split; [by right | done].
Qed.

End Scan.

(** C5: [findBestMatch] is a function of the candidate list and the target,
    and the first candidate that reaches the highest score wins: a
    candidate of positive score that beats everything before it and is not
    beaten by anything after it is the result, because a candidate whose
    score is not strictly greater than the current highest leaves the
    current best in place. *)
Theorem findBestMatch_first_seen_wins
    (l1 l2 : list ParsedKey) (k : ParsedKey) (ti tc : string) :
  0 < scoreOf ti tc k →
  (∀ x, x ∈ l1 → scoreOf ti tc x < scoreOf ti tc k) →
  (∀ y, y ∈ l2 → scoreOf ti tc y ≤ scoreOf ti tc k) →
  findBestMatch (l1 ++ k :: l2) ti tc = Some k
  ∧ (∀ b h c, scoreOf ti tc c ≤ h → matchStep ti tc (b, h) c = (b, h)).
Proof.
  intros Hpos H1 H2. split; [| intros b h c; apply matchStep_keep].
  unfold findBestMatch. rewrite fold_left_app. simpl.
  pose proof (scan_below ti tc l1 None 0 _ H1 Hpos) as Hlt.
  destruct (fold_left (matchStep ti tc) l1 (None, 0)) as [b h]. simpl in Hlt.
  rewrite matchStep_take by done.
  by rewrite scan_keep.
Qed.

Lemma findBestMatch_first_seen_wins_witness :
  findBestMatch
    ([mkParsedKey "farewell" "app_entry" "f"]
     ++ mkParsedKey "greeting" "default" "first"
        :: [mkParsedKey "greeting" "default" "second"])
    "greeting" "app_entry"
  = Some (mkParsedKey "greeting" "default" "first")
  ∧ (∀ b h c, scoreOf "greeting" "app_entry" c ≤ h →
       matchStep "greeting" "app_entry" (b, h) c = (b, h)).
Proof.
  apply (findBestMatch_first_seen_wins
           [mkParsedKey "farewell" "app_entry" "f"]
           [mkParsedKey "greeting" "default" "second"]
           (mkParsedKey "greeting" "default" "first")
           "greeting" "app_entry").
  - reflexivity.
  - intros x Hx. apply list_elem_of_singleton in Hx as ->. reflexivity.
  - intros y Hy. apply list_elem_of_singleton in Hy as ->. discriminate.
Defined.

(** C8: [findBestMatch] returns nothing exactly when no candidate scores
    above zero, and a candidate it returns is in the list and scores
    strictly above zero. *)
Theorem findBestMatch_none_iff (l : list ParsedKey) (ti tc : string) :
  (findBestMatch l ti tc = None ↔ ∀ k, k ∈ l → ¬ 0 < scoreOf ti tc k)
  ∧ (∀ k, findBestMatch l ti tc = Some k → k ∈ l ∧ 0 < scoreOf ti tc k).
Proof.
  unfold findBestMatch.
  destruct (scan_result ti tc l None 0) as [[-> Hall] | (k & -> & Hk & Hlt)];
    simpl.
  - split; [| by intros k ?]. split; [| done].
    intros _ k Hk. specialize (Hall k Hk). lia.
  - split.
    + split; [done |]. intros Hall. by destruct (Hall k Hk).
    + intros k' [= <-]. done.
Qed.

End Engine.

(** ** The layered cache *)

Section Cache.
Import Redis (Reply(..)).
Import CacheService.

Implicit Types (cs : CacheService.t) (key lang value : string) (now : Z).

Lemma redisHit_down cs cacheKey now :
  sharedDown cs → redisHit cs cacheKey now = None.
Proof.
  unfold sharedDown, redisHit, Redis.get.
  destruct (redis cs) as [r|]; [| done]. by intros ->.
Qed.

Lemma memoryHit_expired cs cacheKey now (e : Entry) :
  memoryCache cs !! cacheKey = Some e → expiresAt e ≤ now →
  memoryHit cs cacheKey now = None.
Proof.
  intros He Hle. unfold memoryHit. rewrite He.
  destruct (Z.gtb_spec (expiresAt e) now); [lia | done].
Qed.

Lemma memoryHit_live cs cacheKey now (e : Entry) :
  memoryCache cs !! cacheKey = Some e → now < expiresAt e →
  memoryHit cs cacheKey now = Some (value e).
Proof.
  intros He Hlt. unfold memoryHit. rewrite He.
  destruct (Z.gtb_spec (expiresAt e) now); [done | lia].
Qed.

Lemma set_down cs key lang value now :
  sharedDown cs →
  set cs key lang value now
  = memorySet cs (getCacheKey key lang) value now.
Proof.
  unfold sharedDown, set, Redis.setex.
  destruct (redis cs) as [r|]; [| done]. by intros ->.
Qed.

Lemma sharedDown_memorySet cs cacheKey value now :
  sharedDown cs → sharedDown (memorySet cs cacheKey value now).
Proof. done. Qed.

(** C3 (as the code has it): [set] followed by [get] before the TTL has
    elapsed returns the value written, for every value when the shared
    tier cannot serve, and for every non-empty value when it serves. *)
Theorem set_get_roundtrip cs key lang value now now' :
  now' < now + CACHE_TTL * 1000 →
  (sharedUp cs ∧ value ≠ "") ∨ sharedDown cs →
  get (set cs key lang value now) key lang now' = Some value.
Proof.
  intros Hnow [[Hup Hv] | Hdown].
  - unfold sharedUp in Hup. unfold get, set, redisHit, Redis.setex.
    destruct (redis cs) as [r|]; [| done]. rewrite Hup. simpl.
    unfold Redis.get, Redis.lookup. simpl. rewrite lookup_insert_eq. simpl.
    unfold Redis.alive. simpl.
    destruct (Z.ltb_spec now' (now + CACHE_TTL * 1000)); [| lia].
    destruct value; [done | reflexivity].
  - rewrite (set_down _ _ _ _ _ Hdown). unfold get.
    rewrite redisHit_down by done.
    rewrite (memoryHit_live _ _ _ (mkEntry value (now + CACHE_TTL * 1000)));
      [reflexivity | apply lookup_insert_eq | simpl; lia].
Qed.

Lemma set_get_roundtrip_witness :
  get (set {| redis := None; memoryCache := ∅ |}
         "intent:greeting+context:app_entry" "tr" "Merhaba" 0)
    "intent:greeting+context:app_entry" "tr" 1
  = Some "Merhaba".
Proof.
  apply (set_get_roundtrip {| redis := None; memoryCache := ∅ |}
           "intent:greeting+context:app_entry" "tr" "Merhaba" 0 1).
  - reflexivity.
  - right. exact I.
Defined.

(** C3 as stated fails for the empty value while the shared tier serves:
    [set] writes it to the shared tier only, and [get] takes the empty
    string read back for a miss. *)
Lemma set_get_empty_value_shared :
  sharedUp {| redis := Some (Redis.mk true ∅); memoryCache := ∅ |}
  ∧ get (set {| redis := Some (Redis.mk true ∅); memoryCache := ∅ |}
           "greeting" "tr" "" 0) "greeting" "tr" 0
    = None.
Proof. split; reflexivity. Qed.

(** C10: when the shared tier answers the empty string for the composite
    key, [get] does not return it but goes on to the memory cache: it
    returns the value of the entry the memory cache holds for the key
    when that entry has not expired, and is absent when the memory cache
    holds no entry for the key or an expired one. *)
Theorem get_empty_shared_value_is_miss cs (r : Redis.t) key lang now :
  redis cs = Some r →
  Redis.get r (getCacheKey key lang) now = Resolved (Some "") →
  (∀ e, memoryCache cs !! getCacheKey key lang = Some e →
        now < expiresAt e → get cs key lang now = Some (value e))
  ∧ (∀ e, memoryCache cs !! getCacheKey key lang = Some e →
          expiresAt e ≤ now → get cs key lang now = None)
  ∧ (memoryCache cs !! getCacheKey key lang = None →
     get cs key lang now = None).
Proof.
  intros Hr Hget.
  assert (get cs key lang now = memoryHit cs (getCacheKey key lang) now) as H.
  { unfold get, redisHit. by rewrite Hr, Hget. }
  rewrite H. split; [| split].
  - intros e He Hlive. by apply memoryHit_live.
  - intros e He Hexp. by eapply memoryHit_expired.
  - intros Hnone. unfold memoryHit. by rewrite Hnone.
Qed.

Lemma get_empty_shared_value_is_miss_witness :
  get {| redis := Some (Redis.mk true {["greeting:tr" := ("", 20)]});
         memoryCache := {["greeting:tr" := mkEntry "Merhaba" 10]} |}
    "greeting" "tr" 0 = Some "Merhaba"
  ∧ get {| redis := Some (Redis.mk true {["greeting:tr" := ("", 20)]});
           memoryCache := {["greeting:tr" := mkEntry "Merhaba" 10]} |}
      "greeting" "tr" 10 = None
  ∧ get {| redis := Some (Redis.mk true {["greeting:tr" := ("", 20)]});
           memoryCache := ∅ |} "greeting" "tr" 0 = None.
Proof.
  split; [| split].
  - refine (proj1 (get_empty_shared_value_is_miss
                     {| redis := Some (Redis.mk true {["greeting:tr" := ("", 20)]});
                        memoryCache := {["greeting:tr" := mkEntry "Merhaba" 10]} |}
                     (Redis.mk true {["greeting:tr" := ("", 20)]})
                     "greeting" "tr" 0 eq_refl eq_refl)
              (mkEntry "Merhaba" 10) eq_refl _).
    simpl. lia.
  - refine (proj1 (proj2 (get_empty_shared_value_is_miss
                     {| redis := Some (Redis.mk true {["greeting:tr" := ("", 20)]});
                        memoryCache := {["greeting:tr" := mkEntry "Merhaba" 10]} |}
                     (Redis.mk true {["greeting:tr" := ("", 20)]})
                     "greeting" "tr" 10 eq_refl eq_refl))
              (mkEntry "Merhaba" 10) eq_refl _).
    simpl. lia.
  - refine (proj2 (proj2 (get_empty_shared_value_is_miss
                     {| redis := Some (Redis.mk true {["greeting:tr" := ("", 20)]});
                        memoryCache := ∅ |}
                     (Redis.mk true {["greeting:tr" := ("", 20)]})
                     "greeting" "tr" 0 eq_refl eq_refl)) eq_refl).
Defined.

(** C6: an entry of the memory cache whose expiry time is not strictly
    after [now] is never returned, [get] then answers what the shared tier
    alone answers; in particular an entry that [set] wrote to the memory
    cache at time [t] is gone from [get] at every time from
    [t + CACHE_TTL * 1000] on. *)
Theorem local_entry_absent_after_ttl cs key lang now :
  (∀ e, memoryCache cs !! getCacheKey key lang = Some e →
        expiresAt e ≤ now →
        get cs key lang now = redisHit cs (getCacheKey key lang) now)
  ∧ (∀ value t cs',
       sharedDown cs → t + CACHE_TTL * 1000 ≤ now →
       memoryCache cs' = memoryCache (set cs key lang value t) →
       get cs' key lang now = redisHit cs' (getCacheKey key lang) now
       ∧ (sharedDown cs' → get cs' key lang now = None)).
Proof.
  assert (∀ cs0 e, memoryCache cs0 !! getCacheKey key lang = Some e →
                   expiresAt e ≤ now →
                   get cs0 key lang now
                   = redisHit cs0 (getCacheKey key lang) now) as Hgen.
  { intros cs0 e He Hle. unfold get.
    destruct (redisHit cs0 _ now); [done |].
    by eapply memoryHit_expired. }
  split; [apply Hgen |].
  intros value t cs' Hdown Ht Hmem.
  rewrite (set_down _ _ _ _ _ Hdown) in Hmem.
  assert (get cs' key lang now = redisHit cs' (getCacheKey key lang) now) as H.
  { apply (Hgen cs' {| value := value; expiresAt := t + CACHE_TTL * 1000 |}).
    - rewrite Hmem. apply lookup_insert_eq.
    - simpl. lia. }
  split; [done |]. intros Hd. by rewrite H, redisHit_down.
Qed.

Lemma local_entry_absent_after_ttl_witness :
  get (set {| redis := None; memoryCache := ∅ |} "greeting" "tr" "Merhaba" 0)
    "greeting" "tr" 3600000 = None.
Proof.
  refine (proj2 (proj2 (local_entry_absent_after_ttl
                         {| redis := None; memoryCache := ∅ |}
                         "greeting" "tr" 3600000)
                   "Merhaba" 0 _ I _ eq_refl) I).
  unfold CACHE_TTL. lia.
Defined.

(** *** [clearLanguage] *)

(** Lookup after the loop over a list of keys [ks]: a key of the list that
    ends with the suffix is gone, every other key is as before. *)
Lemma clear_loop_lookup (suffix : string) (ks : list string)
    (m : gmap string Entry) (ck : string) :
  fold_left
    (λ acc cacheKey,
       if endsWith cacheKey suffix then base.delete cacheKey acc else acc)
    ks m !! ck
  = if endsWith ck suffix && bool_decide (ck ∈ ks) then None else m !! ck.
Proof.
  revert m. induction ks as [|k ks IH]; intros m; simpl.
  - by rewrite andb_false_r.
  - rewrite IH. destruct (endsWith ck suffix) eqn:Hck; simpl; [| clear IH].
    + destruct (bool_decide_reflect (ck ∈ ks)) as [Hin | Hnin].
      * by rewrite bool_decide_eq_true_2 by (by right).
      * destruct (decide (ck = k)) as [-> | Hne].
        -- rewrite bool_decide_eq_true_2 by left.
           rewrite Hck. apply lookup_delete_eq.
        -- rewrite bool_decide_eq_false_2
             by (intros [? | ?]%elem_of_cons; done).
           destruct (endsWith k suffix); [by apply lookup_delete_ne | done].
    + destruct (endsWith k suffix) eqn:Hk; [| done].
      apply lookup_delete_ne. intros ->. congruence.
Qed.

Lemma clearMemory_lookup (suffix : string) (m : gmap string Entry) (ck : string) :
  clearMemory suffix m !! ck = if endsWith ck suffix then None else m !! ck.
Proof.
  unfold clearMemory. rewrite clear_loop_lookup.
  destruct (endsWith ck suffix); simpl; [| done].
  destruct (bool_decide_reflect (ck ∈ (map_to_list m).*1)) as [Hin | Hnin];
    [done |].
  destruct (m !! ck) as [e|] eqn:He; [| done].
  exfalso. apply Hnin. apply list_elem_of_fmap. exists (ck, e).
  split; [done |]. by apply elem_of_map_to_list.
Qed.

Lemma parseGlob_plain (c : ascii) (p : string) (fuel : nat) :
  isGlobMeta c = false →
  Redis.parseGlob (S fuel) (String c p)
  = Redis.GChar c :: Redis.parseGlob fuel p.
Proof.
  unfold isGlobMeta. rewrite !orb_false_iff. intros [[[H1 H2] H3] H4].
  simpl. by rewrite H1, H2, H3, H4.
Qed.

Lemma parseGlob_literal (s : string) (fuel : nat) :
  globFree s → (String.length s ≤ fuel)%nat →
  Redis.parseGlob fuel s = literal s.
Proof.
  unfold globFree. revert fuel.
  induction s as [|c s IH]; intros fuel Hfree Hlen.
  - by destruct fuel.
  - simpl in Hfree, Hlen. apply andb_true_iff in Hfree as [Hc Hs].
    destruct fuel as [|fuel]; [lia |].
    rewrite parseGlob_plain by (by apply negb_true_iff).
    simpl. f_equal. apply IH; [done | lia].
Qed.

Lemma matchItems_literal (p s : string) :
  Redis.matchItems (literal p) s = String.eqb s p.
Proof.
  revert s. induction p as [|d p IH]; intros [|c s]; simpl; try done.
  by rewrite IH, (Ascii.eqb_sym d c).
Qed.

Lemma matchItems_star (rest : list Redis.GlobItem) (s : string) :
  Redis.matchItems (Redis.GStar :: rest) s
  = Redis.matchItems rest s
    || match s with
       | EmptyString => false
       | String _ s' => Redis.matchItems (Redis.GStar :: rest) s'
       end.
Proof. by destruct s. Qed.

(** For such a language the pattern [*:lang] selects the keys that end
    with [:lang]. *)
Lemma globMatch_suffix (lang ck : string) :
  globFree lang →
  Redis.globMatch ("*:" +:+ lang) ck = endsWith ck (":" +:+ lang).
Proof.
  intros Hfree. unfold Redis.globMatch.
  change ("*:" +:+ lang) with (String "*" (String ":" lang)).
  change (":" +:+ lang) with (String ":" lang).
  change (Redis.parseGlob (String.length (String "*" (String ":" lang)))
            (String "*" (String ":" lang)))
    with (Redis.GStar :: Redis.GChar ":"
            :: Redis.parseGlob (String.length lang) lang).
  rewrite parseGlob_literal by done.
  change (Redis.GChar ":" :: literal lang) with (literal (String ":" lang)).
  induction ck as [|c ck IH]; rewrite matchItems_star, matchItems_literal.
  - reflexivity.
  - rewrite IH. reflexivity.
Qed.

Lemma alive_mono (now now' : Z) (e : string * Z) :
  now ≤ now' → Redis.alive now e = false → Redis.alive now' e = false.
Proof.
  unfold Redis.alive. intros Hle H.
  apply Z.ltb_ge in H. apply Z.ltb_ge. lia.
Qed.

(** The shared tier after [clearLanguage], when it serves: the keys that
    [KEYS *:lang] selected are deleted, nothing else changes. *)
Lemma clearLanguage_shared cs (r : Redis.t) lang now :
  redis cs = Some r → Redis.reachable r = true →
  ∃ r', redis (clearLanguage cs lang now) = Some r'
        ∧ Redis.reachable r' = true
        ∧ ∀ ck now', now ≤ now' →
            Redis.lookup r' ck now'
            = if Redis.globMatch ("*:" +:+ lang) ck then None
              else Redis.lookup r ck now'.
Proof.
  intros Hr Hup. unfold clearLanguage, Redis.keys, Redis.del.
  rewrite Hr, Hup. simpl.
  set (ks := (map_to_list (filter _ (Redis.data r))).*1).
  assert (∀ ck, ck ∈ ks ↔
            ∃ e, Redis.data r !! ck = Some e ∧ Redis.alive now e = true
                 ∧ Redis.globMatch ("*:" +:+ lang) ck = true) as Hks.
  { intros ck. unfold ks. rewrite list_elem_of_fmap. split.
    - intros ([k e] & -> & Hin). apply elem_of_map_to_list in Hin.
      apply map_lookup_filter_Some in Hin as [He [Ha Hg]]. by exists e.
    - intros (e & He & Ha & Hg). exists (ck, e). split; [done |].
      apply elem_of_map_to_list. by apply map_lookup_filter_Some. }
  assert (∀ ck now', now ≤ now' →
            match foldr base.delete (Redis.data r) ks !! ck with
            | Some e => if Redis.alive now' e then Some e.1 else None
            | None => None
            end
            = if Redis.globMatch ("*:" +:+ lang) ck then None
              else Redis.lookup r ck now') as Hdel.
  { intros ck now' Hle. unfold Redis.lookup.
    destruct (decide (ck ∈ ks)) as [Hin | Hnin].
    - rewrite lookup_foldr_delete by done.
      apply Hks in Hin as (e & _ & _ & ->). done.
    - rewrite lookup_foldr_delete_not_elem_of by done.
      destruct (Redis.globMatch ("*:" +:+ lang) ck) eqn:Hg; [| done].
      destruct (Redis.data r !! ck) as [e|] eqn:He; [| done].
      destruct (Redis.alive now e) eqn:Ha.
      + exfalso. apply Hnin, Hks. by exists e.
      + by rewrite (alive_mono now now' e Hle Ha). }
  destruct (0 <? length ks)%nat eqn:Hlen.
  - eexists. split; [done |]. split; [done |]. exact Hdel.
  - exists r. split; [done |]. split; [done |].
    apply Nat.ltb_ge in Hlen. destruct ks; [| simpl in Hlen; lia].
    exact Hdel.
Qed.

(** Where [clearLanguage] does what is asked of it: in the memory cache it
    removes exactly the entries whose composite key ends with [":" + lang]
    and leaves every other entry unchanged, for every [lang]; in a shared
    tier that serves it does the same when [lang] contains none of the
    characters that are special in a glob pattern. *)
Theorem clearLanguage_removes_suffix cs lang now :
  (∀ ck, memoryCache (clearLanguage cs lang now) !! ck
         = if endsWith ck (":" +:+ lang) then None else memoryCache cs !! ck)
  ∧ (∀ r, redis cs = Some r → Redis.reachable r = true → globFree lang →
       ∃ r', redis (clearLanguage cs lang now) = Some r'
             ∧ Redis.reachable r' = true
             ∧ ∀ ck now', now ≤ now' →
                 Redis.lookup r' ck now'
                 = if endsWith ck (":" +:+ lang) then None
                   else Redis.lookup r ck now').
Proof.
  split.
  - intros ck. apply clearMemory_lookup.
  - intros r Hr Hup Hfree.
    destruct (clearLanguage_shared cs r lang now Hr Hup) as (r' & Hr' & Hup' & H).
    exists r'. split; [done |]. split; [done |].
    intros ck now' Hle. rewrite (H ck now' Hle).
    by rewrite globMatch_suffix.
Qed.

(** C9, evaluated where the code departs from it: clearing the language
    ["??"], with which no key below ends, leaves the memory cache as it
    is, but deletes from the shared tier the entry of the language ["tr"],
    because the shared tier selects its keys by the glob pattern [*:??]. *)
Lemma clearLanguage_glob_language :
  endsWith (getCacheKey "greeting" "tr") (":" +:+ "??") = false
  ∧ get tieredCache "greeting" "tr" 0 = Some "Merhaba"
  ∧ get (clearLanguage tieredCache "??" 0) "greeting" "tr" 0 = None
  ∧ get tieredCache "farewell" "tr" 0 = Some "Gule gule"
  ∧ get (clearLanguage tieredCache "??" 0) "farewell" "tr" 0 = Some "Gule gule".
Proof. repeat split; vm_compute; reflexivity. Qed.

End Cache.

(** ** Approval and the cache *)

Section Approval.
Import Contribute.




End Approval.

(** ** More of the semantic engine *)

Section EngineMore.

Lemma lowerChar_idem (c : ascii) : lowerChar (lowerChar c) = lowerChar c.
Proof. destruct c as [[] [] [] [] [] [] [] []]; reflexivity. Qed.

Lemma toLowerCase_idem (s : string) : toLowerCase (toLowerCase s) = toLowerCase s.
Proof.
  induction s as [|c s IH]; simpl; [done |]. by rewrite lowerChar_idem, IH.
Qed.

Lemma lowerOrDefault_normal (x : option string) :
  isEmpty (lowerOrDefault x) = false
  ∧ toLowerCase (lowerOrDefault x) = lowerOrDefault x.
Proof.
  unfold lowerOrDefault. destruct x as [s|]; [| done].
  destruct (isEmpty (toLowerCase s)) eqn:He; [done |].
  by rewrite toLowerCase_idem.
Qed.

(** X1: whatever the input, [parseKey] keeps it as [raw], never yields an
    empty context, and yields an intent and a context that are in lower
    case. *)
Theorem parseKey_normalized (key : string) :
  raw (parseKey key) = key
  ∧ context (parseKey key) ≠ ""
  ∧ toLowerCase (intent (parseKey key)) = intent (parseKey key)
  ∧ toLowerCase (context (parseKey key)) = context (parseKey key).
Proof.
  unfold parseKey.
  destruct (matchKeyPattern key) as [[[m1 m2] m3]|]; simpl.
  - destruct (lowerOrDefault_normal m3) as [Hne Hlow].
    repeat split; try done.
    + intros H. by rewrite H in Hne.
    + apply toLowerCase_idem.
  - destruct (lowerOrDefault_normal (split intentSeparator key !! 1%nat))
      as [Hne Hlow].
    repeat split; try done.
    + intros H. by rewrite H in Hne.
    + apply toLowerCase_idem.
Qed.

(** X2: the pattern test in [isValidKey] adds nothing: a key is valid
    exactly when it contains a [:]. *)
Theorem isValidKey_iff_separator (key : string) :
  isValidKey key = contains ":" key.
Proof.
  unfold isValidKey. destruct (contains ":" key) eqn:Hc.
  - apply orb_true_r.
  - rewrite (matchKeyPattern_no_separator key Hc). reflexivity.
Qed.

(** *** Prefixes and substrings *)

Lemma startsWith_spec (s p : string) :
  startsWith s p = true ↔ ∃ y, s = p +:+ y.
Proof.
  revert s. induction p as [|a p IH]; intros s.
  - split; [intros _; by exists s | intros _; by destruct s].
  - destruct s as [|b s]; simpl.
    + split; [done | intros (y & Hy); discriminate Hy].
    + rewrite andb_true_iff, Ascii.eqb_eq, IH. split.
      * intros [-> (y & ->)]. by exists y.
      * intros (y & Hy). rewrite append_cons in Hy. injection Hy as -> ->.
        split; [done | by exists y].
Qed.

Lemma includes_spec (s p : string) :
  includes s p = true ↔ ∃ x y, s = x +:+ p +:+ y.
Proof.
  induction s as [|c s IH].
  - cbn [includes]. rewrite orb_false_r, startsWith_spec. split.
    + intros (y & Hy). by exists EmptyString, y.
    + intros ([|d x] & y & Hxy); [by exists y | discriminate Hxy].
  - cbn [includes]. rewrite orb_true_iff, startsWith_spec, IH. split.
    + intros [(y & Hy) | (x & y & ->)].
      * by exists EmptyString, y.
      * by exists (String c x), y.
    + intros ([|d x] & y & Hxy).
      * left. by exists y.
      * right. rewrite append_cons in Hxy. injection Hxy as -> ->.
        by exists x, y.
Qed.

Lemma startsWith_nil (s : string) : startsWith s "" = true.
Proof. by destruct s. Qed.

Lemma startsWith_includes (s p : string) :
  startsWith s p = true → includes s p = true.
Proof. intros H. destruct s; simpl in *; by rewrite H. Qed.

(** X3: two contexts are related exactly when one of them occurs inside
    the other; the relation is symmetric, and the two prefix tests of
    [isContextRelated] never decide. *)
Theorem isContextRelated_spec (ctx1 ctx2 : string) :
  (isContextRelated ctx1 ctx2 = true ↔
     (∃ x y, ctx1 = x +:+ ctx2 +:+ y) ∨ (∃ x y, ctx2 = x +:+ ctx1 +:+ y))
  ∧ isContextRelated ctx1 ctx2 = isContextRelated ctx2 ctx1
  ∧ isContextRelated ctx1 ctx2 = includes ctx1 ctx2 || includes ctx2 ctx1.
Proof.
  assert (∀ a b, isContextRelated a b = includes a b || includes b a) as Heq.
  { intros a b. unfold isContextRelated.
    pose proof (startsWith_includes a b). pose proof (startsWith_includes b a).
    destruct (startsWith a b), (startsWith b a), (includes a b), (includes b a);
      simpl in *; auto; try (by exfalso; auto); symmetry; auto. }
  split; [| split].
  - by rewrite Heq, orb_true_iff, !includes_spec.
  - rewrite !Heq. apply orb_comm.
  - apply Heq.
Qed.

(** *** Scores *)

Lemma calculateMatchScore_same_intent (ti kc tc : string) :
  10 ≤ calculateMatchScore ti kc ti tc.
Proof.
  unfold calculateMatchScore. rewrite String.eqb_refl.
  repeat match goal with |- context [if ?b then _ else _] => destruct b end; lia.
Qed.

(** X4: a candidate with the target's intent scores at least 10 and a
    candidate with another intent at most 5, so the first outscores the
    second whatever the two contexts are. *)
Theorem same_intent_outscores_other_intent (ti tc ki kc kc' : string) :
  ki ≠ ti →
  calculateMatchScore ki kc ti tc ≤ 5
  ∧ 10 ≤ calculateMatchScore ti kc' ti tc
  ∧ calculateMatchScore ki kc ti tc < calculateMatchScore ti kc' ti tc.
Proof.
  intros Hne.
  pose proof (calculateMatchScore_other_intent ki kc ti tc Hne).
  pose proof (calculateMatchScore_same_intent ti kc' tc). lia.
Qed.

Lemma same_intent_outscores_other_intent_witness :
  calculateMatchScore "farewell" "app_entry" "greeting" "app_entry" ≤ 5
  ∧ 10 ≤ calculateMatchScore "greeting" "settings" "greeting" "app_entry"
  ∧ calculateMatchScore "farewell" "app_entry" "greeting" "app_entry"
    < calculateMatchScore "greeting" "settings" "greeting" "app_entry".
Proof.
  apply (same_intent_outscores_other_intent
           "greeting" "app_entry" "farewell" "app_entry" "settings").
  discriminate.
Defined.

Lemma calculateMatchScore_15 (ki kc ti tc : string) :
  calculateMatchScore ki kc ti tc ≤ 15
  ∧ (calculateMatchScore ki kc ti tc = 15 ↔ ki = ti ∧ kc = tc).
Proof.
  unfold calculateMatchScore.
  destruct (String.eqb_spec ki ti) as [-> | Hi];
    destruct (String.eqb_spec kc tc) as [-> | Hc];
    repeat match goal with |- context [if ?b then _ else _] => destruct b end;
    (split; [lia | split; [intros; try lia; done | intros [? ?]; try lia; done]]).
Qed.

(** The highest score seen never goes down and bounds every candidate
    scanned. *)
Lemma scan_max (ti tc : string) (l : list ParsedKey)
    (b : option ParsedKey) (h : Z) :
  h ≤ snd (fold_left (matchStep ti tc) l (b, h))
  ∧ ∀ x, x ∈ l → scoreOf ti tc x ≤ snd (fold_left (matchStep ti tc) l (b, h)).
Proof.
  revert b h. induction l as [|y l IH]; intros b h; simpl.
  - split; [lia |]. intros x Hx. by apply elem_of_nil in Hx.
  - destruct (Z.gtb_spec (scoreOf ti tc y) h) as [Hgt | Hle].
    + rewrite matchStep_take by lia.
      destruct (IH (Some y) (scoreOf ti tc y)) as [H1 H2].
      split; [lia |]. intros x [-> | Hx]%elem_of_cons; [done | by apply H2].
    + rewrite matchStep_keep by lia.
      destruct (IH b h) as [H1 H2].
      split; [done |]. intros x [-> | Hx]%elem_of_cons; [lia | by apply H2].
Qed.

Lemma findBestMatch_cases (l : list ParsedKey) (ti tc : string) :
  (findBestMatch l ti tc = None ∧ ∀ x, x ∈ l → scoreOf ti tc x ≤ 0)
  ∨ (∃ k, findBestMatch l ti tc = Some k ∧ k ∈ l ∧ 0 < scoreOf ti tc k
          ∧ ∀ x, x ∈ l → scoreOf ti tc x ≤ scoreOf ti tc k).
Proof.
  unfold findBestMatch.
  pose proof (scan_max ti tc l None 0) as [_ Hmax].
  destruct (scan_result ti tc l None 0) as [[Hr Hall] | (k & Hr & Hk & Hlt)];
    rewrite Hr in *; simpl in *.
  - by left.
  - right. by exists k.
Qed.

(** X5: the candidate [findBestMatch] returns has the highest score of the
    list. *)
Theorem findBestMatch_maximal (l : list ParsedKey) (ti tc : string)
    (k : ParsedKey) :
  findBestMatch l ti tc = Some k →
  ∀ x, x ∈ l → scoreOf ti tc x ≤ scoreOf ti tc k.
Proof.
  intros Hk.
  destruct (findBestMatch_cases l ti tc) as [[Hn _] | (k' & Hk' & _ & _ & Hmax)].
  - congruence.
  - rewrite Hk in Hk'. by injection Hk' as <-.
Qed.

Lemma findBestMatch_maximal_witness :
  scoreOf "greeting" "app_entry" (mkParsedKey "greeting" "default" "a")
  ≤ scoreOf "greeting" "app_entry" (mkParsedKey "greeting" "app_entry" "b").
Proof.
  apply (findBestMatch_maximal
           [mkParsedKey "greeting" "default" "a";
            mkParsedKey "greeting" "app_entry" "b"]
           "greeting" "app_entry" (mkParsedKey "greeting" "app_entry" "b")
           eq_refl).
  left.
Defined.

(** X6: when some candidate has the target's intent, [findBestMatch]
    returns a candidate with the target's intent; when some candidate has
    the target's intent and context, the result has both. *)
Theorem findBestMatch_prefers_intent (l : list ParsedKey) (ti tc : string)
    (c : ParsedKey) :
  c ∈ l → intent c = ti →
  ∃ k, findBestMatch l ti tc = Some k ∧ k ∈ l ∧ intent k = ti
       ∧ (context c = tc → context k = tc).
Proof.
  intros Hc Hi.
  assert (10 ≤ scoreOf ti tc c) as H10.
  { unfold scoreOf. rewrite Hi. apply calculateMatchScore_same_intent. }
  destruct (findBestMatch_cases l ti tc) as [[_ Hall] | (k & Hk & Hin & _ & Hmax)].
  - specialize (Hall c Hc). lia.
  - exists k. split; [done |]. split; [done |].
    specialize (Hmax c Hc).
    assert (intent k = ti) as Hki.
    { destruct (decide (intent k = ti)) as [|Hne]; [done |].
      pose proof (calculateMatchScore_other_intent _ (context k) ti tc Hne).
      unfold scoreOf in Hmax at 2. lia. }
    split; [done |]. intros Hctx.
    assert (scoreOf ti tc c = 15) as H15.
    { apply calculateMatchScore_15. by rewrite Hi, Hctx. }
    destruct (calculateMatchScore_15 (intent k) (context k) ti tc) as [Hle H].
    apply H. unfold scoreOf in Hmax. unfold scoreOf in H15. lia.
Qed.

Lemma findBestMatch_prefers_intent_witness :
  ∃ k, findBestMatch
         [mkParsedKey "farewell" "app_entry" "a";
          mkParsedKey "greeting" "settings" "b"] "greeting" "app_entry"
       = Some k
       ∧ k ∈ [mkParsedKey "farewell" "app_entry" "a";
              mkParsedKey "greeting" "settings" "b"]
       ∧ intent k = "greeting"
       ∧ (context (mkParsedKey "greeting" "settings" "b") = "app_entry" →
          context k = "app_entry").
Proof.
  apply (findBestMatch_prefers_intent
           [mkParsedKey "farewell" "app_entry" "a";
            mkParsedKey "greeting" "settings" "b"]
           "greeting" "app_entry" (mkParsedKey "greeting" "settings" "b")).
  - right. left.
  - reflexivity.
Defined.

(** X7: a candidate whose context is ["default"] or empty, or an empty
    target context, gives a positive score whatever the intents are, so
    [findBestMatch] then returns a candidate even when no intent matches. *)
Theorem findBestMatch_fallback_context (l : list ParsedKey) (ti tc : string)
    (c : ParsedKey) :
  c ∈ l → context c = "default" ∨ context c = "" ∨ tc = "" →
  0 < scoreOf ti tc c ∧ ∃ k, findBestMatch l ti tc = Some k.
Proof.
  intros Hc Hctx.
  assert (0 < scoreOf ti tc c) as Hpos.
  { assert (String.eqb (context c) "default" = true
            ∨ isContextRelated (context c) tc = true) as Hrel.
    { destruct Hctx as [-> | [-> | ->]]; [by left | right | right];
        unfold isContextRelated.
      - by rewrite (startsWith_nil tc), orb_true_r.
      - by rewrite (startsWith_nil (context c)). }
    unfold scoreOf, calculateMatchScore.
    destruct (String.eqb (intent c) ti), (String.eqb (context c) tc),
      (String.eqb (context c) "default"), (isContextRelated (context c) tc);
      try lia; by destruct Hrel. }
  split; [done |].
  destruct (findBestMatch_cases l ti tc) as [[_ Hall] | (k & Hk & _)].
  - specialize (Hall c Hc). lia.
  - by exists k.
Qed.

Lemma findBestMatch_fallback_context_witness :
  0 < scoreOf "greeting" "app_entry" (mkParsedKey "farewell" "default" "a")
  ∧ ∃ k, findBestMatch [mkParsedKey "farewell" "default" "a"]
           "greeting" "app_entry" = Some k.
Proof.
  apply (findBestMatch_fallback_context
           [mkParsedKey "farewell" "default" "a"] "greeting" "app_entry"
           (mkParsedKey "farewell" "default" "a")).
  - left.
  - by left.
Defined.

End EngineMore.

(** ** Batches of keys *)

Section Batches.

Lemma setAdd_NoDup (x : string) (s : list string) :
  NoDup s → NoDup (setAdd x s).
Proof.
  intros Hs. unfold setAdd. case_bool_decide as Hx; [done |].
  apply NoDup_app. split; [done |]. split; [| apply NoDup_singleton].
  intros y Hy ->%list_elem_of_singleton. done.
Qed.

Lemma setAdd_elem_of (x y : string) (s : list string) :
  y ∈ setAdd x s ↔ y = x ∨ y ∈ s.
Proof.
  unfold setAdd. case_bool_decide as Hx.
  - split; [by right | by intros [-> | ?]].
  - rewrite elem_of_app, list_elem_of_singleton. tauto.
Qed.

Lemma extract_loop (keys : list string) (acc : list string) :
  NoDup acc →
  NoDup (fold_left (λ intents key, setAdd (intent (parseKey key)) intents)
           keys acc)
  ∧ ∀ x, x ∈ fold_left
               (λ intents key, setAdd (intent (parseKey key)) intents)
               keys acc
         ↔ x ∈ acc ∨ ∃ key, key ∈ keys ∧ intent (parseKey key) = x.
Proof.
  revert acc. induction keys as [|k keys IH]; intros acc Hacc; simpl.
  - split; [done |]. intros x. split; [by left |].
    intros [? | (key & Hk & _)]; [done | by apply elem_of_nil in Hk].
  - destruct (IH _ (setAdd_NoDup (intent (parseKey k)) acc Hacc)) as [Hnd Hin].
    split; [done |]. intros x. rewrite Hin, setAdd_elem_of. split.
    + intros [[-> | Hx] | (key & Hk & Hx)].
      * right. exists k. split; [left | done].
      * by left.
      * right. exists key. split; [by right | done].
    + intros [Hx | (key & [-> | Hk]%elem_of_cons & Hx)].
      * left. by right.
      * left. by left.
      * right. by exists key.
Qed.

(** X8: [extractIntents] lists every intent that [parseKey] finds in the
    batch, each one once. *)
Theorem extractIntents_spec (keys : list string) :
  NoDup (extractIntents keys)
  ∧ ∀ x, x ∈ extractIntents keys
         ↔ ∃ key, key ∈ keys ∧ intent (parseKey key) = x.
Proof.
  destruct (extract_loop keys [] (NoDup_nil_2 (A:=string))) as [Hnd Hin].
  split; [done |]. intros x. unfold extractIntents. rewrite Hin.
  split; [| by right]. intros [Hx | H]; [by apply elem_of_nil in Hx | done].
Qed.

Lemma group_loop (keys : list ParsedKey) (acc : gmap string (list ParsedKey))
    (i : string) :
  fold_left
    (λ groups key,
       let existing := default [] (groups !! intent key) in
       <[intent key := existing ++ [key]]> groups)
    keys acc !! i
  = match filter (λ key, intent key = i) keys with
    | [] => acc !! i
    | k :: ks => Some (default [] (acc !! i) ++ k :: ks)
    end.
Proof.
  revert acc. induction keys as [|key keys IH]; intros acc; simpl; [done |].
  rewrite IH. destruct (decide (intent key = i)) as [<- | Hne].
  - rewrite filter_cons_True by done. rewrite lookup_insert_eq. simpl.
    destruct (filter _ keys) as [|k ks]; [done |].
    by rewrite <-app_assoc.
  - rewrite filter_cons_False by done. by rewrite lookup_insert_ne.
Qed.

(** X9: the group that [groupByIntent] files under an intent is the list
    of the keys with that intent, in the order of the input; an intent
    that no key has gets no group. *)
Theorem groupByIntent_spec (keys : list ParsedKey) (i : string) :
  groupByIntent keys !! i
  = match filter (λ key, intent key = i) keys with
    | [] => None
    | k :: ks => Some (k :: ks)
    end.
Proof. unfold groupByIntent. by rewrite group_loop, lookup_empty. Qed.

End Batches.

(** ** More of the cache service *)

Section CacheMore.
Import Redis (Reply(..)).
Import CacheService.

Implicit Types (cs : CacheService.t) (key lang value : string) (now : Z).

Lemma getCacheKey_eq key lang : getCacheKey key lang = key +:+ String ":" lang.
Proof. reflexivity. Qed.

(** X10: two pairs whose language codes contain no [:] share a composite
    cache key only when they are the same pair. *)
Theorem getCacheKey_injective key key' lang lang' :
  contains ":" lang = false → contains ":" lang' = false →
  getCacheKey key lang = getCacheKey key' lang' →
  key = key' ∧ lang = lang'.
Proof.
  rewrite !getCacheKey_eq. intros Hl Hl'. revert key'.
  induction key as [|c key IH]; intros [|c' key'] H.
  - rewrite !append_nil_l in H. by injection H as ->.
  - rewrite append_nil_l, append_cons in H. injection H as <- ->.
    rewrite contains_app in Hl. simpl in Hl.
    by rewrite orb_true_r in Hl.
  - rewrite append_nil_l, append_cons in H. injection H as -> <-.
    rewrite contains_app in Hl'. simpl in Hl'.
    by rewrite orb_true_r in Hl'.
  - rewrite !append_cons in H. injection H as -> H.
    destruct (IH _ H) as [-> ->]. done.
Qed.

Lemma getCacheKey_injective_witness :
  "intent:greeting" = "intent:greeting" ∧ "tr" = "tr".
Proof.
  apply (getCacheKey_injective "intent:greeting" "intent:greeting" "tr" "tr");
    reflexivity.
Defined.

Lemma redisHit_lookup cs (r : Redis.t) cacheKey now :
  redis cs = Some r → Redis.reachable r = true →
  redisHit cs cacheKey now
  = match Redis.lookup r cacheKey now with
    | Some v => if isEmpty v then None else Some v
    | None => None
    end.
Proof. intros Hr Hup. unfold redisHit, Redis.get. by rewrite Hr, Hup. Qed.

Lemma redisHit_unreachable cs (r : Redis.t) cacheKey now :
  redis cs = Some r → Redis.reachable r = false →
  redisHit cs cacheKey now = None.
Proof. intros Hr Hup. unfold redisHit, Redis.get. by rewrite Hr, Hup. Qed.

Lemma memoryHit_laterLink (link : option bool) cs cacheKey now :
  memoryHit (laterLink link cs) cacheKey now = memoryHit cs cacheKey now.
Proof. by destruct link. Qed.

(** When the server holds nothing live under the key, the shared tier gives
    no hit, however the connection is later. *)
Lemma redisHit_laterLink_absent (link : option bool) cs cacheKey now :
  (∀ r, redis cs = Some r → Redis.lookup r cacheKey now = None) →
  redisHit (laterLink link cs) cacheKey now = None.
Proof.
  intros Habs. destruct link as [served|]; [| done].
  unfold redisHit, laterLink. simpl.
  destruct (redis cs) as [r|] eqn:Hr; [| done]. simpl.
  unfold Redis.get. simpl. destruct served; [| done].
  specialize (Habs r eq_refl). unfold Redis.lookup in *. simpl.
  by rewrite Habs.
Qed.

Lemma get_laterLink_absent (link : option bool) cs key lang now :
  (∀ r, redis cs = Some r → Redis.lookup r (getCacheKey key lang) now = None) →
  get (laterLink link cs) key lang now
  = memoryHit cs (getCacheKey key lang) now.
Proof.
  intros Habs. unfold get.
  by rewrite redisHit_laterLink_absent, memoryHit_laterLink.
Qed.

(** X11: after a [delete key lang] whose command the shared tier served,
    or made without a handle, [get key lang] is absent, whether the shared
    tier answers the later read or not. After a [delete] whose command was
    rejected the shared tier still holds its value, and [get] returns it
    once reads are served. In every case [get] answers for every other
    composite key what it answered before. *)
Theorem delete_removes_one cs key lang now :
  (sharedUp cs ∨ redis cs = None →
   ∀ link, get (laterLink link (delete cs key lang)) key lang now = None)
  ∧ (∀ r c v,
       redis cs = Some r → Redis.reachable r = false →
       Redis.lookup r (getCacheKey key lang) now = Some (String c v) →
       get (laterLink (Some true) (delete cs key lang)) key lang now
       = Some (String c v))
  ∧ ∀ key' lang',
      getCacheKey key' lang' ≠ getCacheKey key lang →
      get (delete cs key lang) key' lang' now = get cs key' lang' now.
Proof.
  split; [| split].
  - intros Hserved link. rewrite get_laterLink_absent.
    + unfold memoryHit, delete. simpl. by rewrite lookup_delete_eq.
    + intros r' Hr'. unfold delete, Redis.del in Hr'. simpl in Hr'.
      destruct Hserved as [Hup | Hnone].
      * unfold sharedUp in Hup. destruct (redis cs) as [r|]; [| done].
        rewrite Hup in Hr'. injection Hr' as <-.
        unfold Redis.lookup. simpl. by rewrite lookup_delete_eq.
      * by rewrite Hnone in Hr'.
  - intros r c v Hr Hdown Hlook.
    unfold get, redisHit, laterLink, delete, Redis.del, Redis.get. simpl.
    rewrite Hr, Hdown. simpl.
    unfold Redis.lookup in *. simpl. by rewrite Hlook.
  - intros key' lang' Hne. unfold get, memoryHit, delete. simpl.
    rewrite lookup_delete_ne by done.
    unfold redisHit, Redis.get, Redis.del, Redis.lookup. simpl.
    destruct (redis cs) as [r|]; [| done].
    destruct (Redis.reachable r) eqn:Hup; simpl; [| by rewrite Hup].
    by rewrite lookup_delete_ne.
Qed.

Lemma delete_removes_one_witness :
  get (laterLink (Some true) (delete tieredCache "greeting" "tr"))
    "greeting" "tr" 0 = None
  ∧ get (laterLink (Some true)
           (delete (laterLink (Some false) tieredCache) "greeting" "tr"))
      "greeting" "tr" 0 = Some "Merhaba".
Proof.
  split.
  - apply (proj1 (delete_removes_one tieredCache "greeting" "tr" 0)).
    left. reflexivity.
  - apply (proj1 (proj2 (delete_removes_one (laterLink (Some false) tieredCache)
                           "greeting" "tr" 0))
             (Redis.mk false {["greeting:tr" := ("Merhaba", 3600000)]})
             "M"%char "erhaba"); reflexivity.
Defined.


(** X13: [set key lang] does not change what [get] answers for any other
    composite key. *)
Theorem set_other_key cs key lang value now key' lang' now' :
  getCacheKey key' lang' ≠ getCacheKey key lang →
  get (set cs key lang value now) key' lang' now' = get cs key' lang' now'.
Proof.
  intros Hne. unfold get, memoryHit, set, memorySet.
  unfold redisHit, Redis.get, Redis.setex, Redis.lookup.
  destruct (redis cs) as [r|] eqn:Hr; simpl.
  - destruct (Redis.reachable r) eqn:Hup; simpl.
    + by rewrite lookup_insert_ne.
    + rewrite ?Hr, ?Hup. by rewrite lookup_insert_ne.
  - rewrite ?Hr. by rewrite lookup_insert_ne.
Qed.

Lemma set_other_key_witness :
  get (set {| redis := None; memoryCache := ∅ |} "greeting" "tr" "Merhaba" 0)
    "greeting" "en" 1
  = get {| redis := None; memoryCache := ∅ |} "greeting" "en" 1.
Proof.
  apply (set_other_key {| redis := None; memoryCache := ∅ |}
           "greeting" "tr" "Merhaba" 0 "greeting" "en" 1).
  discriminate.
Defined.

(** X14: after a [clearAll] whose command the shared tier served, or made
    without a handle, [get] is absent for every key and language, whether
    the shared tier answers the later read or not; after every [clearAll]
    the statistics count no memory entry. *)
Theorem clearAll_empties cs key lang now :
  (sharedUp cs ∨ redis cs = None →
   ∀ link, get (laterLink link (clearAll cs)) key lang now = None)
  ∧ snd (getStats (clearAll cs)) = 0%nat.
Proof.
  split.
  - intros Hserved link. rewrite get_laterLink_absent.
    + unfold memoryHit, clearAll. simpl. by rewrite lookup_empty.
    + intros r' Hr'. unfold clearAll, Redis.flushdb in Hr'. simpl in Hr'.
      destruct Hserved as [Hup | Hnone].
      * unfold sharedUp in Hup. destruct (redis cs) as [r|]; [| done].
        rewrite Hup in Hr'. injection Hr' as <-.
        unfold Redis.lookup. simpl. by rewrite lookup_empty.
      * by rewrite Hnone in Hr'.
  - unfold getStats, clearAll. simpl. apply map_size_empty.
Qed.

Lemma clearAll_empties_witness :
  get (laterLink (Some true) (clearAll tieredCache)) "greeting" "tr" 0 = None
  ∧ snd (getStats (clearAll tieredCache)) = 0%nat.
Proof.
  split.
  - apply (proj1 (clearAll_empties tieredCache "greeting" "tr" 0)).
    left. reflexivity.
  - apply (proj2 (clearAll_empties tieredCache "greeting" "tr" 0)).
Defined.

(** X15: a value that [set] wrote while the shared tier served is written
    to the shared tier only: the memory cache is unchanged, and once the
    connection has reported an error [get] answers from the memory cache
    as it was before the [set]. *)
Theorem set_shared_lost_on_error cs key lang value now now' :
  sharedUp cs →
  memoryCache (set cs key lang value now) = memoryCache cs
  ∧ get (onRedisError (set cs key lang value now)) key lang now'
    = memoryHit cs (getCacheKey key lang) now'.
Proof.
  unfold sharedUp, set, Redis.setex.
  destruct (redis cs) as [r|]; [| done]. intros ->. simpl.
  split; reflexivity.
Qed.

Lemma set_shared_lost_on_error_witness :
  memoryCache (set {| redis := Some (Redis.mk true ∅); memoryCache := ∅ |}
                 "greeting" "tr" "Merhaba" 0)
  = ∅
  ∧ get (onRedisError
           (set {| redis := Some (Redis.mk true ∅); memoryCache := ∅ |}
              "greeting" "tr" "Merhaba" 0)) "greeting" "tr" 1
    = memoryHit {| redis := Some (Redis.mk true ∅); memoryCache := ∅ |}
        (getCacheKey "greeting" "tr") 1.
Proof.
  apply (set_shared_lost_on_error
           {| redis := Some (Redis.mk true ∅); memoryCache := ∅ |}
           "greeting" "tr" "Merhaba" 0 1).
  reflexivity.
Defined.

(** *** [clearLanguage] seen through [get] *)

Lemma endsWith_app (a p : string) : endsWith (a +:+ p) p = true.
Proof.
  induction a as [|c a IH].
  - rewrite append_nil_l. destruct p; simpl; by rewrite ?String.eqb_refl, ?Ascii.eqb_refl.
  - rewrite append_cons. cbn [endsWith]. by rewrite IH, orb_true_r.
Qed.

Lemma endsWith_contains (c : ascii) (s p : string) :
  endsWith s p = true → contains c p = true → contains c s = true.
Proof.
  induction s as [|d s IH]; cbn [endsWith].
  - rewrite orb_false_r. by intros ->%String.eqb_eq.
  - intros [->%String.eqb_eq | Hs]%orb_true_iff Hp; [done |].
    simpl. by rewrite (IH Hs Hp), orb_true_r.
Qed.

Lemma endsWith_other_language (key lang lang' : string) :
  contains ":" lang = false → contains ":" lang' = false → lang' ≠ lang →
  endsWith (getCacheKey key lang') (":" +:+ lang) = false.
Proof.
  intros Hl Hl' Hne. rewrite getCacheKey_eq.
  change (":" +:+ lang) with (String ":" lang).
  induction key as [|c key IH].
  - rewrite append_nil_l. cbn [endsWith]. apply orb_false_iff. split.
    + apply String.eqb_neq. by intros [= ->].
    + apply not_true_is_false. intros H.
      apply (endsWith_contains ":") in H; [congruence |].
      simpl. reflexivity.
  - rewrite append_cons. cbn [endsWith]. rewrite IH, orb_false_r.
    apply String.eqb_neq. intros [= -> <-].
    rewrite contains_app in Hl. simpl in Hl. by rewrite orb_true_r in Hl.
Qed.

(** While the shared tier cannot serve, or for a language without glob
    characters, [get] after [clearLanguage] is absent on the composite
    keys with the suffix and unchanged on the others. *)
Lemma clearLanguage_get cs lang now key lang' now' :
  sharedDown cs ∨ globFree lang → now ≤ now' →
  get (clearLanguage cs lang now) key lang' now'
  = if endsWith (getCacheKey key lang') (":" +:+ lang) then None
    else get cs key lang' now'.
Proof.
  intros Htier Hle.
  assert (memoryHit (clearLanguage cs lang now) (getCacheKey key lang') now'
          = if endsWith (getCacheKey key lang') (":" +:+ lang) then None
            else memoryHit cs (getCacheKey key lang') now') as Hmem.
  { unfold memoryHit. simpl. rewrite clearMemory_lookup.
    by destruct (endsWith _ _). }
  assert (redisHit (clearLanguage cs lang now) (getCacheKey key lang') now'
          = if endsWith (getCacheKey key lang') (":" +:+ lang) then None
            else redisHit cs (getCacheKey key lang') now') as Hred.
  { destruct (redis cs) as [r|] eqn:Hr.
    - destruct (Redis.reachable r) eqn:Hup.
      + destruct Htier as [Hdown | Hfree].
        { unfold sharedDown in Hdown. rewrite Hr in Hdown. congruence. }
        destruct (clearLanguage_shared cs r lang now Hr Hup)
          as (r' & Hr' & Hup' & Hlook).
        rewrite (redisHit_lookup _ r' _ _ Hr' Hup').
        rewrite (redisHit_lookup _ r _ _ Hr Hup).
        rewrite (Hlook _ _ Hle), globMatch_suffix by done.
        by destruct (endsWith _ _).
      + rewrite (redisHit_unreachable cs r _ _ Hr Hup).
        rewrite (redisHit_unreachable (clearLanguage cs lang now) r).
        * by destruct (endsWith _ _).
        * unfold clearLanguage, Redis.keys. simpl. by rewrite Hr, Hup.
        * done.
    - unfold redisHit, clearLanguage. simpl. rewrite Hr.
      by destruct (endsWith _ _). }
  unfold get. rewrite Hred, Hmem. by destruct (endsWith _ _).
Qed.

(** X16: after a [clearLanguage lang] made without a handle, or whose
    commands the shared tier served for a [lang] without glob character,
    [get key lang] is absent for every key, whether the shared tier
    answers the later read or not. *)
Theorem clearLanguage_then_get cs lang now key now' :
  redis cs = None ∨ (sharedUp cs ∧ globFree lang) → now ≤ now' →
  ∀ link, get (laterLink link (clearLanguage cs lang now)) key lang now' = None.
Proof.
  intros Hserved Hle link.
  assert (endsWith (getCacheKey key lang) (":" +:+ lang) = true) as Hends.
  { rewrite getCacheKey_eq. change (":" +:+ lang) with (String ":" lang).
    apply endsWith_app. }
  rewrite get_laterLink_absent.
  - unfold memoryHit. simpl. by rewrite clearMemory_lookup, Hends.
  - intros r' Hr'. destruct Hserved as [Hnone | [Hup Hfree]].
    + unfold clearLanguage in Hr'. simpl in Hr'. by rewrite Hnone in Hr'.
    + unfold sharedUp in Hup. destruct (redis cs) as [r|] eqn:Hr; [| done].
      destruct (clearLanguage_shared cs r lang now Hr Hup)
        as (r'' & Hr'' & _ & Hlook).
      rewrite Hr' in Hr''. injection Hr'' as <-.
      by rewrite (Hlook _ _ Hle), globMatch_suffix, Hends.
Qed.

Lemma clearLanguage_then_get_witness :
  get (laterLink (Some true)
         (clearLanguage
            (set {| redis := Some (Redis.mk true ∅); memoryCache := ∅ |}
               "greeting" "tr" "Merhaba" 0) "tr" 1)) "greeting" "tr" 2
  = None.
Proof.
  apply (clearLanguage_then_get
           (set {| redis := Some (Redis.mk true ∅); memoryCache := ∅ |}
              "greeting" "tr" "Merhaba" 0) "tr" 1 "greeting" 2).
  - right. split; reflexivity.
  - lia.
Defined.

(** X17: under the same conditions, [clearLanguage lang] leaves [get]
    unchanged for every other language, when neither language code
    contains a [:]. *)
Theorem clearLanguage_other_language cs lang now key lang' now' :
  sharedDown cs ∨ globFree lang → now ≤ now' →
  contains ":" lang = false → contains ":" lang' = false → lang' ≠ lang →
  get (clearLanguage cs lang now) key lang' now' = get cs key lang' now'.
Proof.
  intros Htier Hle Hl Hl' Hne. rewrite clearLanguage_get by done.
  by rewrite endsWith_other_language.
Qed.

Lemma clearLanguage_other_language_witness :
  get (clearLanguage
         (set {| redis := Some (Redis.mk true ∅); memoryCache := ∅ |}
            "greeting" "en" "Hello" 0) "tr" 1) "greeting" "en" 2
  = get (set {| redis := Some (Redis.mk true ∅); memoryCache := ∅ |}
           "greeting" "en" "Hello" 0) "greeting" "en" 2.
Proof.
  apply (clearLanguage_other_language
           (set {| redis := Some (Redis.mk true ∅); memoryCache := ∅ |}
              "greeting" "en" "Hello" 0) "tr" 1 "greeting" "en" 2).
  - right. reflexivity.
  - lia.
  - reflexivity.
  - reflexivity.
  - discriminate.
Defined.

End CacheMore.

(** ** More of the contribution workflow *)

Section Workflow.
Import Contribute.

Implicit Types (db : Db) (c : Contribution).

Lemma approve_eval (id newId : string) db c (k : TranslationKey) (l : Language) :
  contributions db !! id = Some c →
  translationKeys db !! c_keyId c = Some k →
  languages db !! c_languageId c = Some l →
  approve id newId db
  = (Approved (rowId db (c_keyId c) (c_languageId c) newId) (tk_key k)
       (c_suggestedValue c) (l_code l),
     approvedDb id newId db c).
Proof.
  intros Hc Hk Hl. unfold approve, upsertTranslation, approvedDb, rowId.
  rewrite Hc, Hk, Hl. simpl.
  by destruct (translations db !! (c_keyId c, c_languageId c)).
Qed.

Lemma approve_inv (id newId : string) db (tid key value lang : string) db' :
  approve id newId db = (Approved tid key value lang, db') →
  ∃ c k l,
    contributions db !! id = Some c
    ∧ translationKeys db !! c_keyId c = Some k
    ∧ languages db !! c_languageId c = Some l
    ∧ tid = rowId db (c_keyId c) (c_languageId c) newId
    ∧ key = tk_key k ∧ value = c_suggestedValue c ∧ lang = l_code l
    ∧ db' = approvedDb id newId db c.
Proof.
  intros H.
  destruct (contributions db !! id) as [c|] eqn:Hc;
    [| unfold approve in H; rewrite Hc in H; discriminate H].
  destruct (translationKeys db !! c_keyId c) as [k|] eqn:Hk;
    [| unfold approve in H; rewrite Hc, Hk in H; discriminate H].
  destruct (languages db !! c_languageId c) as [l|] eqn:Hl;
    [| unfold approve in H; rewrite Hc, Hk, Hl in H; discriminate H].
  rewrite (approve_eval id newId db c k l Hc Hk Hl) in H.
  injection H as <- <- <- <- <-. by exists c, k, l.
Qed.

Lemma alter_withStatus_twice (s1 s2 id : string)
    (m : gmap string Contribution) :
  alter (withStatus s2) id (alter (withStatus s1) id m)
  = alter (withStatus s2) id m.
Proof.
  apply map_eq. intros j. destruct (decide (id = j)) as [<- | Hne].
  - rewrite !lookup_alter_eq. by destruct (m !! id).
  - by rewrite !lookup_alter_ne.
Qed.

(** X19: approving a contribution a second time answers as the first time
    and leaves the database as the first approval left it. *)
Theorem approve_idempotent (id newId newId' : string) db
    (tid key value lang : string) db' :
  approve id newId db = (Approved tid key value lang, db') →
  approve id newId' db' = (Approved tid key value lang, db').
Proof.
  intros H.
  apply approve_inv in H as (c & k & l & Hc & Hk & Hl & -> & -> & -> & -> & ->).
  assert (contributions (approvedDb id newId db c) !! id
          = Some (withStatus "APPROVED" c)) as Hc'.
  { simpl. by rewrite lookup_alter_eq, Hc. }
  rewrite (approve_eval id newId' _ _ k l Hc' Hk Hl). simpl.
  unfold rowId at 1. simpl. rewrite lookup_insert_eq. simpl.
  f_equal. unfold approvedDb. simpl. f_equal.
  - apply alter_withStatus_twice.
  - unfold rowId at 1. simpl. rewrite lookup_insert_eq. simpl.
    apply insert_insert_eq.
Qed.

Lemma approve_idempotent_witness :
  approve "c1" "t3" (approve "c1" "t2" (db staleServer)).2
  = (Approved "t1" "intent:greeting" "Selam" "tr",
     (approve "c1" "t2" (db staleServer)).2).
Proof.
  apply (approve_idempotent "c1" "t2" "t3" (db staleServer)
           "t1" "intent:greeting" "Selam" "tr"). reflexivity.
Defined.

(** X20: a rejection after an approval leaves the translations alone,
    with or without a request body: the contribution's value stays the
    approved translation. With a body the contribution is marked
    REJECTED; without one the handler throws before its update, nothing
    is written and the contribution stays APPROVED. *)
Theorem reject_after_approve (id newId : string)
    (body : option (option string)) db (tid key value lang : string) db1 :
  approve id newId db = (Approved tid key value lang, db1) →
  ∃ c,
    contributions db !! id = Some c
    ∧ translations (reject id body db1).2 !! (c_keyId c, c_languageId c)
      = Some {| t_id := tid; t_value := value; t_status := "APPROVED" |}
    ∧ (∀ reason, body = Some reason →
         (reject id body db1).1 = RejectDone id "REJECTED"
         ∧ contributions (reject id body db1).2 !! id
           = Some (withStatus "REJECTED" c))
    ∧ (body = None →
         reject id body db1 = (RejectThrown, db1)
         ∧ contributions db1 !! id = Some (withStatus "APPROVED" c)).
Proof.
  intros H.
  apply approve_inv in H as (c & k & l & Hc & Hk & Hl & -> & -> & -> & -> & ->).
  exists c. split; [done |].
  assert (contributions (approvedDb id newId db c) !! id
          = Some (withStatus "APPROVED" c)) as Hc'.
  { simpl. by rewrite lookup_alter_eq, Hc. }
  assert (contributions (updateStatus id "REJECTED" (approvedDb id newId db c))
            !! id = Some (withStatus "REJECTED" c)) as Hrej.
  { unfold updateStatus. simpl.
    change (alter _ id (alter (withStatus "APPROVED") id (contributions db)))
      with (alter (withStatus "REJECTED") id
              (alter (withStatus "APPROVED") id (contributions db))).
    by rewrite alter_withStatus_twice, lookup_alter_eq, Hc. }
  split; [| split].
  - unfold reject. destruct body as [reason|]; rewrite ?Hc'; simpl;
      apply lookup_insert_eq.
  - intros reason ->. unfold reject. rewrite Hc'. simpl. by split.
  - intros ->. by split.
Qed.

Lemma reject_after_approve_witness :
  ∃ c,
    contributions (db staleServer) !! "c1" = Some c
    ∧ translations (reject "c1" None (approve "c1" "t2" (db staleServer)).2).2
        !! (c_keyId c, c_languageId c)
      = Some {| t_id := "t1"; t_value := "Selam"; t_status := "APPROVED" |}
    ∧ (∀ reason : option string, @None (option string) = Some reason →
         (reject "c1" None (approve "c1" "t2" (db staleServer)).2).1
         = RejectDone "c1" "REJECTED"
         ∧ contributions
             (reject "c1" None (approve "c1" "t2" (db staleServer)).2).2
             !! "c1"
           = Some (withStatus "REJECTED" c))
    ∧ (@None (option string) = None →
         reject "c1" None (approve "c1" "t2" (db staleServer)).2
         = (RejectThrown, (approve "c1" "t2" (db staleServer)).2)
         ∧ contributions (approve "c1" "t2" (db staleServer)).2 !! "c1"
           = Some (withStatus "APPROVED" c)).
Proof.
  apply (reject_after_approve "c1" "t2" None (db staleServer)
           "t1" "intent:greeting" "Selam" "tr"). reflexivity.
Defined.

(** X21: the approval does not look at the status of the contribution or
    at earlier approvals: of two contributions for the same key and
    language approved one after the other, the second one's value is the
    translation, stored in the row the first approval wrote. *)
Theorem approve_last_wins (id1 id2 n1 n2 : string) db c2
    (tid key value lang : string) db1 :
  approve id1 n1 db = (Approved tid key value lang, db1) →
  id2 ≠ id1 →
  contributions db !! id2 = Some c2 →
  (∃ c1, contributions db !! id1 = Some c1
         ∧ c_keyId c2 = c_keyId c1 ∧ c_languageId c2 = c_languageId c1) →
  ∃ db2,
    approve id2 n2 db1 = (Approved tid key (c_suggestedValue c2) lang, db2)
    ∧ translations db2 !! (c_keyId c2, c_languageId c2)
      = Some {| t_id := tid; t_value := c_suggestedValue c2;
                t_status := "APPROVED" |}.
Proof.
  intros H Hne Hc2 (c1' & Hc1' & Hkid & Hlid).
  apply approve_inv in H as (c & k & l & Hc & Hk & Hl & -> & -> & -> & -> & ->).
  rewrite Hc in Hc1'. injection Hc1' as <-.
  assert (contributions (approvedDb id1 n1 db c) !! id2 = Some c2) as Hc2'.
  { simpl. by rewrite lookup_alter_ne. }
  rewrite <-Hkid in Hk. rewrite <-Hlid in Hl.
  assert (rowId (approvedDb id1 n1 db c) (c_keyId c2) (c_languageId c2) n2
          = rowId db (c_keyId c) (c_languageId c) n1) as Hrid.
  { unfold rowId at 1. simpl. by rewrite Hkid, Hlid, lookup_insert_eq. }
  eexists. rewrite (approve_eval id2 n2 _ c2 k l Hc2' Hk Hl), Hrid.
  split; [done |]. unfold approvedDb at 1. simpl. rewrite Hrid.
  assert (∀ row : Translation,
            <[(c_keyId c2, c_languageId c2) := row]>
              (translations (approvedDb id1 n1 db c))
              !! (c_keyId c2, c_languageId c2) = Some row) as Hrow
    by (intros row; apply lookup_insert_eq).
  apply Hrow.
Qed.

Lemma approve_last_wins_witness :
  ∃ db2,
    approve "c2" "t3" (approve "c1" "t2" secondOpinion).2
    = (Approved "t2" "intent:greeting" "Selamlar" "tr", db2)
    ∧ translations db2 !! ("k1", "l1")
      = Some {| t_id := "t2"; t_value := "Selamlar"; t_status := "APPROVED" |}.
Proof.
  apply (approve_last_wins "c1" "c2" "t2" "t3" secondOpinion
           (mkContribution "k1" "l1" "Selamlar" "REJECTED")
           "t2" "intent:greeting" "Selam" "tr"
           (approve "c1" "t2" secondOpinion).2).
  - reflexivity.
  - discriminate.
  - reflexivity.
  - exists (mkContribution "k1" "l1" "Selam" "OPEN"). by repeat split.
Defined.

End Workflow.

(** ** Submission and lookup *)

Section Lookup.
Import Contribute Translate.

Implicit Types (db : Db) (srv : Server).

Lemma head_filter_Some {A} (P : A → Prop) `{!∀ x, Decision (P x)}
    (l : list A) (x : A) :
  head (filter P l) = Some x → x ∈ l ∧ P x.
Proof.
  intros Hh. assert (x ∈ filter P l) as Hin.
  { destruct (filter P l) as [|y ys]; [discriminate Hh |].
    injection Hh as ->. left. }
  apply list_elem_of_filter in Hin. tauto.
Qed.

Lemma head_filter_None {A} (P : A → Prop) `{!∀ x, Decision (P x)}
    (l : list A) :
  head (filter P l) = None → ∀ x, x ∈ l → ¬ P x.
Proof.
  intros Hh x Hx HP.
  assert (x ∈ filter P l) as Hin by (by apply list_elem_of_filter).
  destruct (filter P l); [by apply elem_of_nil in Hin | discriminate Hh].
Qed.

Lemma findFirstKey_Some db (key i c id : string) (row : TranslationKey) :
  findFirstKey db key i c = Some (id, row) →
  translationKeys db !! id = Some row ∧ keyMatches key i c row = true.
Proof.
  intros [Hin HP]%head_filter_Some. by apply elem_of_map_to_list in Hin.
Qed.

Lemma findFirstKey_None db (key i c : string) :
  findFirstKey db key i c = None ↔
  ∀ id row, translationKeys db !! id = Some row → keyMatches key i c row = false.
Proof.
  split.
  - intros H id row Hrow. apply not_true_is_false.
    apply (head_filter_None _ _ H (id, row)). by apply elem_of_map_to_list.
  - intros H. destruct (findFirstKey db key i c) as [[id row]|] eqn:Hf; [| done].
    apply findFirstKey_Some in Hf as [Hrow Hm]. rewrite (H _ _ Hrow) in Hm.
    discriminate Hm.
Qed.

Lemma findLanguageByCode_Some db (code id : string) (l : Language) :
  findLanguageByCode db code = Some (id, l) →
  languages db !! id = Some l ∧ l_code l = code.
Proof.
  intros [Hin HP]%head_filter_Some. apply elem_of_map_to_list in Hin.
  split; [done |]. by apply String.eqb_eq.
Qed.

Lemma findLanguageByCode_None db (code : string) :
  findLanguageByCode db code = None ↔
  ∀ id l, languages db !! id = Some l → l_code l ≠ code.
Proof.
  split.
  - intros H id l Hl Hc.
    apply (head_filter_None _ _ H (id, l)); [by apply elem_of_map_to_list |].
    by apply String.eqb_eq.
  - intros H. destruct (findLanguageByCode db code) as [[id l]|] eqn:Hf; [| done].
    apply findLanguageByCode_Some in Hf as [Hl Hc]. by destruct (H _ _ Hl).
Qed.

(** X22: a submission for a language that no row has answers 404 and
    stores no contribution, but when no key row matched it has already
    created one, which stays. *)
Theorem submit_unknown_language (key lang value newKeyId newId : string) db :
  (∀ id l, languages db !! id = Some l → l_code l ≠ lang) →
  (∀ id row, translationKeys db !! id = Some row →
     keyMatches key (intent (parseKey key)) (context (parseKey key)) row
     = false) →
  ∃ db',
    submit key lang value newKeyId newId db = (LanguageNotFound, db')
    ∧ contributions db' = contributions db
    ∧ translationKeys db' !! newKeyId = Some (storedKey key).
Proof.
  intros Hlang Hkey. apply findLanguageByCode_None in Hlang.
  apply findFirstKey_None in Hkey.
  unfold submit. rewrite Hkey.
  unfold findLanguageByCode in *. simpl. rewrite Hlang.
  eexists. split; [done |]. split; [done |]. simpl. apply lookup_insert_eq.
Qed.

Lemma submit_unknown_language_witness :
  ∃ db',
    submit "farewell" "xx" "Bye" "k2" "c3" (db staleServer)
    = (LanguageNotFound, db')
    ∧ contributions db' = contributions (db staleServer)
    ∧ translationKeys db' !! "k2" = Some (storedKey "farewell").
Proof.
  apply (submit_unknown_language "farewell" "xx" "Bye" "k2" "c3"
           (db staleServer)).
  - intros id l Hl. unfold staleServer in Hl. cbn [db languages] in Hl.
    apply lookup_singleton_Some in Hl as [<- <-]. discriminate.
  - intros id row Hrow. unfold staleServer in Hrow.
    cbn [db translationKeys] in Hrow.
    apply lookup_singleton_Some in Hrow as [<- <-]. reflexivity.
Defined.

(** X23: when some key row has the submitted key string, or the intent
    and context that [parseKey] gives it, and the language exists, the
    submission creates no key row and files the contribution, OPEN, under
    a row that passes that test. *)
Theorem submit_attaches_to_matching_row
    (key lang value newKeyId newId id0 lid0 : string)
    (row0 : TranslationKey) (l0 : Language) db :
  translationKeys db !! id0 = Some row0 →
  keyMatches key (intent (parseKey key)) (context (parseKey key)) row0 = true →
  languages db !! lid0 = Some l0 → l_code l0 = lang →
  ∃ db' kid row lid l,
    submit key lang value newKeyId newId db
    = (Created newId key lang value "OPEN", db')
    ∧ translationKeys db' = translationKeys db
    ∧ contributions db'
      = <[newId := mkContribution kid lid value "OPEN"]> (contributions db)
    ∧ translationKeys db !! kid = Some row
    ∧ keyMatches key (intent (parseKey key)) (context (parseKey key)) row = true
    ∧ languages db !! lid = Some l ∧ l_code l = lang.
Proof.
  intros Hrow0 Hm0 Hl0 Hc0. unfold submit.
  destruct (findFirstKey db key _ _) as [[kid row]|] eqn:Hf.
  - apply findFirstKey_Some in Hf as [Hrow Hm].
    destruct (findLanguageByCode db lang) as [[lid l]|] eqn:Hl.
    + apply findLanguageByCode_Some in Hl as [Hl Hc].
      eexists _, kid, row, lid, l. by repeat split.
    + exfalso. eapply findLanguageByCode_None in Hl; [| exact Hl0]. done.
  - exfalso. eapply findFirstKey_None in Hf; [| exact Hrow0]. congruence.
Qed.

Lemma submit_attaches_to_matching_row_witness :
  ∃ db' kid row lid l,
    submit "intent:goodbye" "tr" "Hosca kal" "k2" "c3" (db staleServer)
    = (Created "c3" "intent:goodbye" "tr" "Hosca kal" "OPEN", db')
    ∧ translationKeys db' = translationKeys (db staleServer)
    ∧ contributions db'
      = <[ "c3" := mkContribution kid lid "Hosca kal" "OPEN"]>
          (contributions (db staleServer))
    ∧ translationKeys (db staleServer) !! kid = Some row
    ∧ keyMatches "intent:goodbye" (intent (parseKey "intent:goodbye"))
        (context (parseKey "intent:goodbye")) row = true
    ∧ languages (db staleServer) !! lid = Some l ∧ l_code l = "tr".
Proof.
  apply (submit_attaches_to_matching_row "intent:goodbye" "tr" "Hosca kal"
           "k2" "c3" "k1" "l1"
           (mkTranslationKey "intent:greeting" "intent" "default")
           (mkLanguage "tr") (db staleServer)); reflexivity.
Defined.

(** *** The lookup handler *)


Lemma approvedTranslations_elem db (keyId lang : string) (t : Translation) :
  t ∈ approvedTranslations db keyId lang →
  ∃ lid l, translations db !! (keyId, lid) = Some t
           ∧ languages db !! lid = Some l ∧ l_code l = lang
           ∧ t_status t = "APPROVED".
Proof.
  unfold approvedTranslations. intros Hin.
  apply list_elem_of_fmap in Hin as ([[k lid] t'] & -> & Hin).
  apply list_elem_of_filter in Hin as [HP Hin].
  apply elem_of_map_to_list in Hin. simpl in HP.
  apply andb_true_iff in HP as [HP Hst].
  apply andb_true_iff in HP as [Hk Hl].
  apply String.eqb_eq in Hk as ->. apply String.eqb_eq in Hst.
  destruct (languages db !! lid) as [l|] eqn:Hlang; [| discriminate Hl].
  apply String.eqb_eq in Hl. by exists lid, l.
Qed.

(** What a lookup that went to the database did. *)
Lemma translate_miss_inv (key lang : string) srv (now : Z)
    (v ctx : string) srv' :
  translate key lang srv now = (Translated key v lang ctx false, srv') →
  ctx = context (parseKey key)
  ∧ db srv' = db srv
  ∧ cacheService srv' = CacheService.set (cacheService srv) key lang v now
  ∧ ∃ kid row t,
      findFirstKey (db srv) key (intent (parseKey key)) (context (parseKey key))
      = Some (kid, row)
      ∧ t ∈ approvedTranslations (db srv) kid lang ∧ t_value t = v.
Proof.
  unfold translate. intros H.
  destruct (CacheService.get (cacheService srv) key lang now) as [[|c cached]|];
    [| discriminate H |];
    (destruct (findFirstKey (db srv) key _ _) as [[kid row]|] eqn:Hf;
       [| discriminate H];
     destruct (approvedTranslations (db srv) kid lang) as [|t ts] eqn:Ht;
       [discriminate H |];
     injection H as <- <- <-;
     repeat split; try done;
     exists kid, row, t; rewrite Ht; repeat split; try done; left).
Qed.

(** X24: a value that the lookup takes from the database is the value of
    an APPROVED translation, in the language asked for, of a key row that
    has the key string asked for or the intent and context that
    [parseKey] gives it; the lookup writes it to the cache and leaves the
    database alone. *)
Theorem translate_miss_sound (key lang : string) srv (now : Z)
    (v ctx : string) srv' :
  translate key lang srv now = (Translated key v lang ctx false, srv') →
  db srv' = db srv
  ∧ cacheService srv' = CacheService.set (cacheService srv) key lang v now
  ∧ ∃ kid row lid l t,
      translationKeys (db srv) !! kid = Some row
      ∧ keyMatches key (intent (parseKey key)) (context (parseKey key)) row
        = true
      ∧ translations (db srv) !! (kid, lid) = Some t
      ∧ languages (db srv) !! lid = Some l ∧ l_code l = lang
      ∧ t_status t = "APPROVED" ∧ t_value t = v.
Proof.
  intros H.
  apply translate_miss_inv in H
    as (_ & Hdb & Hcache & kid & row & t & Hf & Ht & Hv).
  split; [done |]. split; [done |].
  apply findFirstKey_Some in Hf as [Hrow Hm].
  apply approvedTranslations_elem in Ht as (lid & l & Ht & Hl & Hc & Hs).
  by exists kid, row, lid, l, t.
Qed.

Lemma translate_miss_sound_witness :
  db (translate "intent:greeting" "tr" coldServer 0).2 = db coldServer
  ∧ cacheService (translate "intent:greeting" "tr" coldServer 0).2
    = CacheService.set (cacheService coldServer) "intent:greeting" "tr"
        "Merhaba" 0
  ∧ ∃ kid row lid l t,
      translationKeys (db coldServer) !! kid = Some row
      ∧ keyMatches "intent:greeting" (intent (parseKey "intent:greeting"))
          (context (parseKey "intent:greeting")) row = true
      ∧ translations (db coldServer) !! (kid, lid) = Some t
      ∧ languages (db coldServer) !! lid = Some l ∧ l_code l = "tr"
      ∧ t_status t = "APPROVED" ∧ t_value t = "Merhaba".
Proof.
  apply (translate_miss_sound "intent:greeting" "tr" coldServer 0
           "Merhaba" "default"). reflexivity.
Defined.






Lemma canonical_parse (I C : string) :
  lowerToken I → lowerToken C →
  intent (parseKey ("intent:" +:+ I +:+ "+context:" +:+ C)) = "intent"
  ∧ context (parseKey ("intent:" +:+ I +:+ "+context:" +:+ C)) = C.
Proof.
  intros HI HC. unfold parseKey.
  rewrite (matchKeyPattern_canonical I C HI HC). simpl.
  destruct HC as [HC1 HC2]. unfold lowerOrDefault.
  by rewrite (toLowerCase_lower C HC2), HC1.
Qed.

(** X27: the stored row of a key [intent:I+context:C] passes the lookup
    filter of every key [intent:I'+context:C], because [parseKey] gives
    both the intent ["intent"]. So where that row is the only key row and
    has an approved translation, a lookup of the other key is answered
    with that translation. *)
Theorem translate_canonical_collision
    (I I' C lang v kid lid tid : string) (cache : CacheService.t) (now : Z) :
  lowerToken I → lowerToken I' → lowerToken C →
  CacheService.get cache ("intent:" +:+ I' +:+ "+context:" +:+ C) lang now
  = None →
  (translate ("intent:" +:+ I' +:+ "+context:" +:+ C) lang
     {| db :=
          {| translationKeys :=
               {[kid := storedKey ("intent:" +:+ I +:+ "+context:" +:+ C)]};
             languages := {[lid := mkLanguage lang]};
             contributions := ∅;
             translations := {[(kid, lid) := mkTranslation tid v "APPROVED"]} |};
        cacheService := cache |} now).1
  = Translated ("intent:" +:+ I' +:+ "+context:" +:+ C) v lang C false.
Proof.
  intros HI HI' HC Hget.
  destruct (canonical_parse I C HI HC) as [Hi Hc].
  destruct (canonical_parse I' C HI' HC) as [Hi' Hc'].
  assert (isEmpty C = false) as HCne by apply HC.
  unfold translate. cbn [cacheService db]. rewrite Hget, Hi', Hc'.
  unfold findFirstKey. cbn [translationKeys].
  rewrite map_to_list_singleton.
  assert (keyMatches ("intent:" +:+ I' +:+ "+context:" +:+ C) "intent" C
            (storedKey ("intent:" +:+ I +:+ "+context:" +:+ C)) = true) as Hm.
  { unfold keyMatches, storedKey. cbn [tk_intent tk_context].
    rewrite Hi, Hc, HCne. rewrite String.eqb_refl. simpl.
    by rewrite String.eqb_refl, orb_true_r. }
  rewrite filter_cons_True by done. cbn [head].
  unfold approvedTranslations. cbn [translations languages].
  rewrite map_to_list_singleton.
  rewrite filter_cons_True.
  - reflexivity.
  - simpl. rewrite lookup_singleton_eq. simpl.
    by rewrite !String.eqb_refl.
Qed.

Lemma translate_canonical_collision_witness :
  (translate "intent:goodbye+context:app_entry" "tr"
     {| db :=
          {| translationKeys :=
               {["k1" := storedKey "intent:greeting+context:app_entry"]};
             languages := {["l1" := mkLanguage "tr"]};
             contributions := ∅;
             translations :=
               {[("k1", "l1") := mkTranslation "t1" "Merhaba" "APPROVED"]} |};
        cacheService :=
          {| CacheService.redis := None; CacheService.memoryCache := ∅ |} |}
     0).1
  = Translated "intent:goodbye+context:app_entry" "Merhaba" "tr" "app_entry"
      false.
Proof.
  apply (translate_canonical_collision "greeting" "goodbye" "app_entry" "tr"
           "Merhaba" "k1" "l1" "t1"
           {| CacheService.redis := None; CacheService.memoryCache := ∅ |} 0);
    first [reflexivity | split; reflexivity].
Defined.

End Lookup.

(** ** Case of the key *)

Section KeyCase.

Lemma isLetter_lower (c : ascii) : isLetter (lowerChar c) = isLetter c.
Proof. destruct c as [[] [] [] [] [] [] [] []]; reflexivity. Qed.

Lemma isWord_lower (c : ascii) : isWord (lowerChar c) = isWord c.
Proof. destruct c as [[] [] [] [] [] [] [] []]; reflexivity. Qed.

Lemma separator_lower (c : ascii) :
  Ascii.eqb (lowerChar c) ":" = Ascii.eqb c ":".
Proof. destruct c as [[] [] [] [] [] [] [] []]; reflexivity. Qed.

Lemma span_lower (f : ascii → bool) (s : string) :
  (∀ c, f (lowerChar c) = f c) →
  span f (toLowerCase s)
  = (toLowerCase (span f s).1, toLowerCase (span f s).2).
Proof.
  intros Hf. induction s as [|c s IH]; simpl; [done |].
  rewrite Hf. destruct (f c); [| done].
  rewrite IH. by destruct (span f s).
Qed.

Lemma stripLiteral_lower (lit s : string) :
  plainLiteral lit →
  stripLiteral lit (toLowerCase s) = toLowerCase <$> stripLiteral lit s.
Proof.
  revert s. induction lit as [|a lit IH]; intros s Hlit; [by destruct s |].
  destruct Hlit as [Ha Hlit]. destruct s as [|b s]; simpl; [done |].
  rewrite Ha. destruct (Ascii.eqb a (fold b)); [by apply IH | done].
Qed.

Lemma contextSeparator_plain : plainLiteral contextSeparator.
Proof.
  unfold contextSeparator. simpl.
  repeat split; intros [[] [] [] [] [] [] [] []]; reflexivity.
Qed.

Lemma split_lower (s : string) :
  split ":" (toLowerCase s) = toLowerCase <$> split ":" s.
Proof.
  induction s as [|c s IH]; simpl; [done |].
  rewrite separator_lower. destruct (Ascii.eqb c ":").
  - by rewrite IH.
  - rewrite IH. by destruct (split ":" s).
Qed.

Lemma lowerOrDefault_lower (x : option string) :
  lowerOrDefault (toLowerCase <$> x) = lowerOrDefault x.
Proof. destruct x as [s|]; simpl; [| done]. by rewrite !toLowerCase_idem. Qed.

Lemma matchKeyPattern_lower (key : string) :
  matchKeyPattern (toLowerCase key)
  = option_map
      (λ m : string * string * option string,
         (toLowerCase m.1.1, toLowerCase m.1.2, option_map toLowerCase m.2))
      (matchKeyPattern key).
Proof.
  unfold matchKeyPattern.
  rewrite (span_lower isLetter key isLetter_lower).
  destruct (span isLetter key) as [m1 r1]. cbn [fst snd].
  destruct r1 as [|c r1]; [done |]. cbn [toLowerCase].
  destruct (Ascii.eqb_spec c ":") as [-> | Hne].
  2: { assert (lowerChar c ≠ ":"%char) as Hne'.
       { intros H. apply Hne. apply Ascii.eqb_eq.
         rewrite <-separator_lower. by apply Ascii.eqb_eq. }
       destruct c as [[] [] [] [] [] [] [] []]; try done. }
  change (lowerChar ":") with ":"%char. cbv iota beta.
  rewrite toLowerCase_isEmpty. destruct (isEmpty m1); [done |].
  rewrite (span_lower isWord r1 isWord_lower).
  destruct (span isWord r1) as [m2 r2]. cbn [fst snd].
  destruct r2 as [|d r2].
  - cbn [toLowerCase]. rewrite toLowerCase_isEmpty. by destruct (isEmpty m2).
  - cbn [toLowerCase]. rewrite toLowerCase_isEmpty.
    destruct (isEmpty m2); [done |].
    change (String (lowerChar d) (toLowerCase r2))
      with (toLowerCase (String d r2)).
    rewrite (stripLiteral_lower _ _ contextSeparator_plain).
    destruct (stripLiteral contextSeparator (String d r2)) as [r3|]; [| done].
    cbn [fmap option_fmap option_map].
    rewrite (span_lower isWord r3 isWord_lower).
    destruct (span isWord r3) as [m3 r4]. cbn [fst snd].
    destruct r4; [| done]. cbn [toLowerCase].
    rewrite toLowerCase_isEmpty. by destruct (isEmpty m3).
Qed.

(** X28: [parseKey] does not see the case of an ASCII input: a key made
    of ASCII code units and its lower-cased form get the same intent and
    the same context. *)
Theorem parseKey_case_insensitive (key : string) :
  all isAscii key = true →
  intent (parseKey (toLowerCase key)) = intent (parseKey key)
  ∧ context (parseKey (toLowerCase key)) = context (parseKey key).
Proof.
  intros _. unfold parseKey. rewrite matchKeyPattern_lower.
  destruct (matchKeyPattern key) as [[[m1 m2] m3]|]; simpl.
  - change (option_map toLowerCase m3) with (toLowerCase <$> m3).
    by rewrite toLowerCase_idem, lowerOrDefault_lower.
  - unfold intentSeparator. rewrite split_lower, !list_lookup_fmap.
    rewrite lowerOrDefault_lower.
    destruct (split ":" key !! 0%nat); simpl; by rewrite ?toLowerCase_idem.
Qed.

Lemma parseKey_case_insensitive_witness :
  intent (parseKey (toLowerCase "Intent:Greeting+CONTEXT:App_Entry"))
  = intent (parseKey "Intent:Greeting+CONTEXT:App_Entry")
  ∧ context (parseKey (toLowerCase "Intent:Greeting+CONTEXT:App_Entry"))
    = context (parseKey "Intent:Greeting+CONTEXT:App_Entry").
Proof.
  apply (parseKey_case_insensitive "Intent:Greeting+CONTEXT:App_Entry").
  reflexivity.
Defined.

End KeyCase.
